(** * kNet: the wait-free ring buffer and the in-order test harness

    A shallow embedding of [WaitFreeQueue<T>] (WaitFreeQueue.h) and of the
    command line driver of InOrderTest.cpp, together with the properties the
    library's specification states about them. *)

From Stdlib Require Import ZArith Zdiv Lia String Ascii.
From stdpp Require Import base tactics option list relations.

Local Open Scope Z_scope.

(** ** Machine integers

    The queue stores its indices in [unsigned long] and takes its sizes as
    [size_t]; both widths depend on the platform (ILP32, LLP64, LP64), so they
    are parameters of the development.  [int] and [u32] are 32 bits wide. *)

Class DataModel := {
  ulong_bits : Z;
  size_t_bits : Z;
  ulong_bits_ge : 32 <= ulong_bits;
  size_t_bits_ge : ulong_bits <= size_t_bits
}.

Definition ILP32 : DataModel :=
  {| ulong_bits := 32; size_t_bits := 32;
     ulong_bits_ge := Z.le_refl 32; size_t_bits_ge := Z.le_refl 32 |}.

Definition LLP64 : DataModel :=
  {| ulong_bits := 32; size_t_bits := 64;
     ulong_bits_ge := Z.le_refl 32;
     size_t_bits_ge := ltac:(discriminate) |}.

Definition LP64 : DataModel :=
  {| ulong_bits := 64; size_t_bits := 64;
     ulong_bits_ge := ltac:(discriminate); size_t_bits_ge := Z.le_refl 64 |}.

Section MachineIntegers.
Context `{DataModel}.

(** Conversion to [unsigned long], [size_t] and [u32]: reduction modulo 2^w. *)
Definition ulong (x : Z) : Z := x mod 2 ^ ulong_bits.
Definition size_t (x : Z) : Z := x mod 2 ^ size_t_bits.
Definition u32 (x : Z) : Z := x mod 2 ^ 32.

(** Conversion to [int]: two's complement on 32 bits. *)
Definition to_int (x : Z) : Z :=
  let y := x mod 2 ^ 32 in if y <? 2 ^ 31 then y else y - 2 ^ 32.

(** [unsigned long] addition and subtraction wrap around. *)
Definition uadd (a b : Z) : Z := ulong (a + b).
Definition usub (a b : Z) : Z := ulong (a - b).
Definition umul (a b : Z) : Z := ulong (a * b).
End MachineIntegers.

(** Modelled from the spec: Alignment.h, which declares [RoundUpToNextPow2]
    and [IS_POW2], is not among the sources.  The specification asks for a
    capacity that is a power of two, and the queue rounds the requested size
    up to one: the result is the least power of two that is not below the
    argument, as a [u32]. *)
Definition RoundUpToNextPow2 (x : Z) : Z := (2 ^ Z.log2_up x) mod 2 ^ 32.

(** The sizes that can be rounded up inside a [u32]: what is left of the
    size after the cast to [u32] is between 1 and [2^31]. *)
Definition valid_size (n : Z) : Prop := 0 < u32 n <= 2 ^ 31.

(** Modelled from the spec: [IS_POW2] (Alignment.h) holds of the powers of
    two. *)
Definition IS_POW2 (x : Z) : bool := (0 <? x) && (x =? 2 ^ Z.log2 x).

Module Queue.

Section WaitFreeQueue.
Context `{DataModel}.
Context {T : Type}.
(** The content of a freshly allocated slot of a [new T[n]] array of PODs. *)
Variable uninit : T.

(** The private members of [WaitFreeQueue<T>]. *)
Record WaitFreeQueue := mkQueue {
  data : list T;
  maxElementsMask : Z;
  head : Z;
  tail : Z
}.

Definition set_data (d : list T) (q : WaitFreeQueue) : WaitFreeQueue :=
  mkQueue d (maxElementsMask q) (head q) (tail q).
Definition set_maxElementsMask (m : Z) (q : WaitFreeQueue) : WaitFreeQueue :=
  mkQueue (data q) m (head q) (tail q).
Definition set_head (h : Z) (q : WaitFreeQueue) : WaitFreeQueue :=
  mkQueue (data q) (maxElementsMask q) h (tail q).
Definition set_tail (t : Z) (q : WaitFreeQueue) : WaitFreeQueue :=
  mkQueue (data q) (maxElementsMask q) (head q) t.

(** A [T*] into the [data] array: null, or the address of a slot. *)
Inductive ptr := null | slot (i : Z).

(** *** The monad of member functions

    A member function reads and writes the members of [*this] and has
    undefined behaviour when it reads or writes outside [data] or
    dereferences a null pointer: [None] stands for undefined behaviour. *)
Definition M (A : Type) : Type := WaitFreeQueue -> option (A * WaitFreeQueue).

Definition ret {A} (x : A) : M A := fun q => Some (x, q).
Definition bind {A B} (m : M A) (f : A -> M B) : M B :=
  fun q => match m q with
           | Some (x, q') => f x q'
           | None => None
           end.
Definition undefined {A} : M A := fun _ => None.
Definition gets {A} (f : WaitFreeQueue -> A) : M A := fun q => Some (f q, q).
Definition modify (f : WaitFreeQueue -> WaitFreeQueue) : M unit :=
  fun q => Some (tt, f q).

#[global] Instance M_ret : MRet M := @ret.
#[global] Instance M_bind : MBind M := fun A B f m => bind m f.

(** Reading and writing a slot of an array of [T]. *)
Definition array_load (a : list T) (i : Z) : option T :=
  if 0 <=? i then a !! Z.to_nat i else None.
Definition array_store (a : list T) (i : Z) (v : T) : option (list T) :=
  if (0 <=? i) && (i <? Z.of_nat (length a))
  then Some (<[Z.to_nat i := v]> a) else None.

Definition lift {A} (o : option A) : M A :=
  fun q => match o with Some x => Some (x, q) | None => None end.

(** [data[i]] as an rvalue, [data[i] = v], and [*p]. *)
Definition data_load (i : Z) : M T :=
  d ← gets data; lift (array_load d i).
Definition data_store (i : Z) (v : T) : M unit :=
  d ← gets data; d' ← lift (array_store d i v); modify (set_data d').
Definition deref (p : ptr) : M T :=
  match p with
  | null => undefined
  | slot i => data_load i
  end.

(** [assert(c)]: the released library is built with NDEBUG, where an
    assertion evaluates nothing. *)
Definition assert (c : bool) : M unit := ret tt.

(** [for (int i = 0; i < n; ++i) body(i)] with a bound the body leaves
    alone. *)
Fixpoint for_loop (n : nat) (i : Z) (body : Z -> M unit) : M unit :=
  match n with
  | O => ret tt
  | S n' => body i;; for_loop n' (i + 1) body
  end.
Definition for_int (bound : Z) (body : Z -> M unit) : M unit :=
  for_loop (Z.to_nat bound) 0 body.

(** *** Construction *)

Definition new_array (n : Z) : list T := replicate (Z.to_nat n) uninit.

Definition WaitFreeQueue_new (maxElements : Z) : WaitFreeQueue :=
  (* assert(IS_POW2(maxElements)); assert(maxElements > 2);
     both hold of the sizes the class is documented for, and neither is
     evaluated in a release build *)
  let maxElements := size_t (RoundUpToNextPow2 (u32 maxElements)) in
  {| data := new_array maxElements;
     maxElementsMask := ulong (size_t (maxElements - 1));
     head := 0;
     tail := 0 |}.

(** *** Observers *)

Definition Capacity (q : WaitFreeQueue) : Z := to_int (maxElementsMask q).

Definition Size (q : WaitFreeQueue) : Z :=
  let head_ := head q in
  let tail_ := tail q in
  if tail_ >=? head_ then usub tail_ head_
  else usub (uadd (maxElementsMask q) 1) (usub head_ tail_).

Definition CapacityLeft (q : WaitFreeQueue) : Z :=
  to_int (usub (ulong (Capacity q)) (Size q)).

Definition Front (q : WaitFreeQueue) : ptr :=
  if head q =? tail q then null else slot (head q).

Definition ItemAt (index : Z) (q : WaitFreeQueue) : ptr :=
  (* assert(index < (int)Size()); *)
  slot (Z.land (uadd (head q) (ulong index)) (maxElementsMask q)).

(** *** Mutators *)

Definition Insert (value : T) : M bool :=
  tail_ ← gets tail;
  mask ← gets maxElementsMask;
  let nextTail := Z.land (uadd tail_ 1) mask in
  head_ ← gets head;
  if nextTail =? head_ then ret false
  else
    data_store tail_ value;;
    modify (set_tail nextTail);;
    ret true.

(** The copy loop of [Resize]: [newData[newTail++] = *ItemAt(i)] for the
    [n] values of [i] from the given one on.  The loop changes no member, so
    that its bound [Size()] is the same at every test. *)
Fixpoint Resize_copy (n : nat) (i : Z) (newData : list T) (newTail : Z)
  : M (list T * Z) :=
  match n with
  | O => ret (newData, newTail)
  | S n' =>
      p ← gets (ItemAt (to_int i));
      x ← deref p;
      newData' ← lift (array_store newData newTail x);
      Resize_copy n' (uadd i 1) newData' (uadd newTail 1)
  end.

Definition Resize (newSize : Z) : M unit :=
  assert (IS_POW2 newSize);;
  let newSize := size_t (RoundUpToNextPow2 (u32 newSize)) in
  let newData := new_array newSize in
  n ← gets Size;
  r ← Resize_copy (Z.to_nat n) 0 newData 0;
  modify (set_data (fst r));;
  modify (set_head 0);;
  modify (set_tail (snd r));;
  modify (set_maxElementsMask (ulong (size_t (newSize - 1)))).

Definition DoubleCapacity : M unit :=
  mask ← gets maxElementsMask;
  Resize (size_t (umul 2 (uadd mask 1))).

Definition InsertWithResize (value : T) : M unit :=
  success ← Insert value;
  success ← (if negb success
              then DoubleCapacity;; Insert value
              else ret success);
  assert success.

Definition PopFront : M unit :=
  h ← gets head;
  t ← gets tail;
  assert (negb (h =? t));;
  if h =? t then ret tt
  else
    mask ← gets maxElementsMask;
    let head_ := size_t (Z.land (uadd h 1) mask) in
    modify (set_head (ulong head_)).

Definition TakeFront : M T :=
  p ← gets Front;
  frontVal ← deref p;
  PopFront;;
  ret frontVal.

Definition Clear : M unit :=
  h ← gets head;
  modify (set_tail h).

(** The body of the loop of [EraseItemAtMoveFront]:
    [data[(head+index + maxElementsMask+1 -i)&maxElementsMask] =
     data[(head+index + maxElementsMask+1 -i-1) &maxElementsMask]]. *)
Definition EraseItemAtMoveFront_body (index i : Z) : M unit :=
  h ← gets head;
  mask ← gets maxElementsMask;
  let idx := ulong index in
  let src :=
    Z.land (usub (usub (uadd (uadd (uadd h idx) mask) 1) (ulong i)) 1) mask in
  let dst := Z.land (usub (uadd (uadd (uadd h idx) mask) 1) (ulong i)) mask in
  x ← data_load src;
  data_store dst x.

Definition EraseItemAtMoveFront (index : Z) : M unit :=
  n ← gets Size;
  assert (0 <? n);;
  let numItemsToMove := index in
  for_int numItemsToMove (EraseItemAtMoveFront_body index);;
  h ← gets head;
  mask ← gets maxElementsMask;
  modify (set_head (Z.land (uadd h 1) mask)).

(** The body of the loop of [EraseItemAtMoveBack]:
    [data[(head+index+i)&maxElementsMask] =
     data[(head+index+i+1)&maxElementsMask]]. *)
Definition EraseItemAtMoveBack_body (index i : Z) : M unit :=
  h ← gets head;
  mask ← gets maxElementsMask;
  let idx := ulong index in
  let src := Z.land (uadd (uadd (uadd h idx) (ulong i)) 1) mask in
  let dst := Z.land (uadd (uadd h idx) (ulong i)) mask in
  x ← data_load src;
  data_store dst x.

Definition EraseItemAtMoveBack (index : Z) : M unit :=
  n ← gets Size;
  assert (0 <? n);;
  let numItemsToMove := to_int (usub (usub n 1) (ulong index)) in
  for_int numItemsToMove (EraseItemAtMoveBack_body index);;
  t ← gets tail;
  mask ← gets maxElementsMask;
  modify (set_tail (Z.land (usub (uadd (uadd t mask) 1) 1) mask)).

Definition EraseItemAt (index : Z) : M unit :=
  n ← gets Size;
  if ulong index <=? Z.shiftr n 1
  then EraseItemAtMoveFront index
  else EraseItemAtMoveBack index.

(** *** Well-formed queues and the sequence a queue holds *)

(** The invariant of a constructed queue: the array has [2^k] slots for
    some [k <= 31] (the length went through a [u32]), the mask is one less,
    and both indices are inside the array. *)
Record wf (q : WaitFreeQueue) : Prop := {
  wf_mask : exists k, 0 <= k <= 31 /\ maxElementsMask q = 2 ^ k - 1;
  wf_data : Z.of_nat (length (data q)) = maxElementsMask q + 1;
  wf_head : 0 <= head q <= maxElementsMask q;
  wf_tail : 0 <= tail q <= maxElementsMask q
}.

(** The same invariant as a test. *)
Definition wf_check (q : WaitFreeQueue) : bool :=
  let C := maxElementsMask q + 1 in
  (0 <? C) && (C =? 2 ^ Z.log2 C) && (Z.log2 C <=? 31)
  && (Z.of_nat (length (data q)) =? C)
  && (0 <=? head q) && (head q <? C) && (0 <=? tail q) && (tail q <? C).

(** The slot that holds the element at position [j] of the queue. *)
Definition phys (q : WaitFreeQueue) (j : Z) : nat :=
  Z.to_nat ((head q + j) mod (maxElementsMask q + 1)).

(** [*ItemAt(index)]. *)
Definition item (index : Z) : M T :=
  p ← gets (ItemAt index); deref p.

(** What a consumer sees: [*ItemAt(0)], ..., [*ItemAt(Size()-1)]. *)
Definition elements (q : WaitFreeQueue) : option (list T) :=
  mapM (fun i => fst <$> item i q) (seqZ 0 (Size q)).

(** *** The public mutators, as values *)
Inductive op :=
| OpInsert (value : T)
| OpInsertWithResize (value : T)
| OpResize (newSize : Z)
| OpDoubleCapacity
| OpPopFront
| OpTakeFront
| OpClear
| OpEraseItemAt (index : Z).

Definition run_op (o : op) : M unit :=
  match o with
  | OpInsert v => _ ← Insert v; ret tt
  | OpInsertWithResize v => InsertWithResize v
  | OpResize n => Resize n
  | OpDoubleCapacity => DoubleCapacity
  | OpPopFront => PopFront
  | OpTakeFront => _ ← TakeFront; ret tt
  | OpClear => Clear
  | OpEraseItemAt i => EraseItemAt i
  end.

Definition is_full (q : WaitFreeQueue) : Prop :=
  (tail q + 1) mod (maxElementsMask q + 1) = head q.

#[global] Instance is_full_dec q : Decision (is_full q) :=
  Z.eq_dec ((tail q + 1) mod (maxElementsMask q + 1)) (head q).

(** [Insert] applied to a list of values in turn, stopping at the first
    one that does not fit. *)
Fixpoint insert_all (vs : list T) (q : WaitFreeQueue) : option WaitFreeQueue :=
  match vs with
  | [] => Some q
  | v :: vs' =>
      match Insert v q with
      | Some (true, q') => insert_all vs' q'
      | _ => None
      end
  end.

End WaitFreeQueue.

(** Three queues of integers: four slots that hold 3, 4, 5, so that the
    queue is full and its elements wrap around the end of the array; four
    slots and no element; and [2^31] slots, all but one of them taken. *)
Definition q_full : WaitFreeQueue := mkQueue [5; 2; 3; 4] 3 2 1.
Definition q_empty : WaitFreeQueue := mkQueue [5; 2; 3; 4] 3 1 1.
Definition q_2G : WaitFreeQueue :=
  mkQueue (replicate (Z.to_nat (2 ^ 31)) 0) (2 ^ 31 - 1) 0 (2 ^ 31 - 1).

End Queue.

(** ** One producer and one consumer

    The queue is shared by a producer thread inside [Insert] and a consumer
    thread that takes the front element with [Front], [*p] and [PopFront].
    Every read or write of [head], [tail] or a slot of [data] is one step, in
    the order of the statements of WaitFreeQueue.h, and the steps of the two
    threads interleave freely. *)
Module SPSC.
Import Queue.

Section Interleaving.
Context `{DataModel} {T : Type}.

(** Where the producer stands inside [Insert(value)]. *)
Inductive producer_pc :=
| PIdle
| PReadTail (value : T) (tail_ : Z)
| PWrite (value : T) (tail_ nextTail : Z)
| PPublish (value : T) (nextTail : Z).

(** Where the consumer stands inside [Front], [*p] and [PopFront]. *)
Inductive consumer_pc :=
| CIdle
| CFrontHead (h : Z)
| CFrontTail (t : Z)
| CFrontNonEmpty
| CHold (p : Z)
| CPop (x : T)
| CPopHead (x : T) (h : Z)
| CPopTail (x : T) (t : Z)
| CPopNonEmpty (x : T)
| CPopNext (x : T) (head_ : Z).

(** The shared queue, the two program counters, and the two histories: the
    values whose [Insert] returned true, and the values the consumer took
    off the queue. *)
Record state := mkState {
  mem : WaitFreeQueue (T:=T);
  ppc : producer_pc;
  cpc : consumer_pc;
  inserted : list T;
  popped : list T
}.

Inductive thread := Producer | Consumer.

Inductive step : thread -> state -> state -> Prop :=
(* Insert: unsigned long tail_ = tail; *)
| p_read_tail q c ins pops value :
    step Producer (mkState q PIdle c ins pops)
      (mkState q (PReadTail value (tail q)) c ins pops)
(* nextTail = (tail_ + 1) & maxElementsMask; if (nextTail == head) return false; *)
| p_full q c ins pops value tail_ :
    Z.land (uadd tail_ 1) (maxElementsMask q) = head q ->
    step Producer (mkState q (PReadTail value tail_) c ins pops)
      (mkState q PIdle c ins pops)
| p_room q c ins pops value tail_ :
    Z.land (uadd tail_ 1) (maxElementsMask q) <> head q ->
    step Producer (mkState q (PReadTail value tail_) c ins pops)
      (mkState q (PWrite value tail_ (Z.land (uadd tail_ 1) (maxElementsMask q)))
         c ins pops)
(* data[tail_] = value; *)
| p_write q c ins pops value tail_ nextTail d :
    array_store (data q) tail_ value = Some d ->
    step Producer (mkState q (PWrite value tail_ nextTail) c ins pops)
      (mkState (set_data d q) (PPublish value nextTail) c ins pops)
(* tail = nextTail; return true; *)
| p_publish q c ins pops value nextTail :
    step Producer (mkState q (PPublish value nextTail) c ins pops)
      (mkState (set_tail nextTail q) PIdle c (ins ++ [value]) pops)
(* Front: if (head == tail) return 0; *)
| c_front_head q p ins pops :
    step Consumer (mkState q p CIdle ins pops)
      (mkState q p (CFrontHead (head q)) ins pops)
| c_front_empty q p ins pops h :
    h = tail q ->
    step Consumer (mkState q p (CFrontHead h) ins pops)
      (mkState q p CIdle ins pops)
| c_front_nonempty q p ins pops h :
    h <> tail q ->
    step Consumer (mkState q p (CFrontHead h) ins pops)
      (mkState q p CFrontNonEmpty ins pops)
| c_front_tail q p ins pops :
    step Consumer (mkState q p CIdle ins pops)
      (mkState q p (CFrontTail (tail q)) ins pops)
| c_front_tail_empty q p ins pops t :
    head q = t ->
    step Consumer (mkState q p (CFrontTail t) ins pops)
      (mkState q p CIdle ins pops)
| c_front_tail_nonempty q p ins pops t :
    head q <> t ->
    step Consumer (mkState q p (CFrontTail t) ins pops)
      (mkState q p CFrontNonEmpty ins pops)
(* return &data[head]; *)
| c_front_return q p ins pops :
    step Consumer (mkState q p CFrontNonEmpty ins pops)
      (mkState q p (CHold (head q)) ins pops)
(* the caller reads the element: *p *)
| c_deref q p ins pops i x :
    array_load (data q) i = Some x ->
    step Consumer (mkState q p (CHold i) ins pops)
      (mkState q p (CPop x) ins pops)
(* PopFront: if (head == tail) return; *)
| c_pop_head q p ins pops x :
    step Consumer (mkState q p (CPop x) ins pops)
      (mkState q p (CPopHead x (head q)) ins pops)
| c_pop_empty q p ins pops x h :
    h = tail q ->
    step Consumer (mkState q p (CPopHead x h) ins pops)
      (mkState q p CIdle ins pops)
| c_pop_nonempty q p ins pops x h :
    h <> tail q ->
    step Consumer (mkState q p (CPopHead x h) ins pops)
      (mkState q p (CPopNonEmpty x) ins pops)
| c_pop_tail q p ins pops x :
    step Consumer (mkState q p (CPop x) ins pops)
      (mkState q p (CPopTail x (tail q)) ins pops)
| c_pop_tail_empty q p ins pops x t :
    head q = t ->
    step Consumer (mkState q p (CPopTail x t) ins pops)
      (mkState q p CIdle ins pops)
| c_pop_tail_nonempty q p ins pops x t :
    head q <> t ->
    step Consumer (mkState q p (CPopTail x t) ins pops)
      (mkState q p (CPopNonEmpty x) ins pops)
(* size_t head_ = (head + 1) & maxElementsMask; *)
| c_pop_next q p ins pops x :
    step Consumer (mkState q p (CPopNonEmpty x) ins pops)
      (mkState q p
         (CPopNext x (size_t (Z.land (uadd (head q) 1) (maxElementsMask q))))
         ins pops)
(* head = head_; *)
| c_pop_store q p ins pops x head_ :
    step Consumer (mkState q p (CPopNext x head_) ins pops)
      (mkState (set_head (ulong head_) q) p CIdle ins (pops ++ [x])).

(** A step of either thread, and an interleaving: any finite sequence of
    such steps. *)
Definition any_step (s s' : state) : Prop := exists t, step t s s'.

Definition interleaving : state -> state -> Prop := rtc any_step.

Definition initial (q : WaitFreeQueue) : state :=
  mkState q PIdle CIdle [] [].

(** What each program counter knows about the shared queue. *)
Definition producer_ok (q : WaitFreeQueue) (pc : producer_pc) : Prop :=
  match pc with
  | PIdle => True
  | PReadTail _ tail_ => tail_ = tail q
  | PWrite _ tail_ nextTail =>
      tail_ = tail q /\
      nextTail = (tail q + 1) mod (maxElementsMask q + 1) /\ ~ is_full q
  | PPublish value nextTail =>
      nextTail = (tail q + 1) mod (maxElementsMask q + 1) /\ ~ is_full q /\
      data q !! Z.to_nat (tail q) = Some value
  end.

Definition front_is (q : WaitFreeQueue) (x : T) : Prop :=
  head q <> tail q /\ data q !! Z.to_nat (head q) = Some x.

Definition consumer_ok (q : WaitFreeQueue) (pc : consumer_pc) : Prop :=
  match pc with
  | CIdle => True
  | CFrontHead h => h = head q
  | CFrontTail t => head q <> t -> head q <> tail q
  | CFrontNonEmpty => head q <> tail q
  | CHold p => p = head q /\ head q <> tail q
  | CPop x => front_is q x
  | CPopHead x h => h = head q /\ front_is q x
  | CPopTail x _ => front_is q x
  | CPopNonEmpty x => front_is q x
  | CPopNext x head_ =>
      head_ = (head q + 1) mod (maxElementsMask q + 1) /\ front_is q x
  end.

(** The invariant of the interleavings that start with the elements
    [l0] in the queue. *)
Definition invariant (l0 : list T) (s : state) : Prop :=
  wf (mem s) /\ producer_ok (mem s) (ppc s) /\ consumer_ok (mem s) (cpc s) /\
  exists l, elements (mem s) = Some l /\ l0 ++ inserted s = popped s ++ l.

End Interleaving.
End SPSC.

(** ** The in-order test harness (InOrderTest.cpp) *)
Module InOrderTest.

Local Open Scope string_scope.
Local Open Scope Z_scope.
Local Open Scope list_scope.

Inductive SocketTransportLayer :=
| InvalidTransportLayer
| SocketOverTCP
| SocketOverUDP.

Inductive ConnectionState :=
| ConnectionPending
| ConnectionOK
| ConnectionDisconnecting
| ConnectionClosed.

(** What the harness writes to [cout]: strings, numbers and [endl]. *)
Inductive token :=
| Str (s : string)
| Num (n : Z)
| Endl.

(** [_stricmp] of the C runtime: the strings are compared byte by byte
    after lowering the letters [A]..[Z]; the result is zero when they agree. *)
Definition tolower (c : ascii) : Z :=
  let n := Z.of_nat (nat_of_ascii c) in
  if (65 <=? n) && (n <=? 90) then n + 32 else n.

Fixpoint _stricmp (a b : string) : Z :=
  match a, b with
  | EmptyString, EmptyString => 0
  | EmptyString, String c _ => - tolower c
  | String c _, EmptyString => tolower c
  | String c a', String c' b' =>
      if tolower c =? tolower c' then _stricmp a' b'
      else tolower c - tolower c'
  end.

(** Conversion to [unsigned short]. *)
Definition ushort (x : Z) : Z := x mod 2 ^ 16.

(** Modelled from the spec: [StringToSocketTransportLayer] is declared in
    kNet's socket header, which is not among the sources.  The command line
    of the harness is [server {tcp|udp} <port>] and
    [client {tcp|udp} <host> <port>]: [tcp] and [udp] name the two
    transports, and anything else is invalid. *)
Definition StringToSocketTransportLayer_model (s : string) : SocketTransportLayer :=
  if _stricmp s "tcp" =? 0 then SocketOverTCP
  else if _stricmp s "udp" =? 0 then SocketOverUDP
  else InvalidTransportLayer.

(** [atoi] of the C library, which is [(int) strtol(s, 0, 10)]: white
    space is skipped ([isspace]: the blank and the characters 9 to 13), an
    optional sign and the decimal digits that follow are read, the number is
    kept within [long] ([LONG_MIN] or [LONG_MAX] when it is beyond) and
    converted to [int].  Without digits the result is 0. *)
Definition isspace (c : ascii) : bool :=
  let n := Z.of_nat (nat_of_ascii c) in
  (n =? 32) || ((9 <=? n) && (n <=? 13)).

Fixpoint skip_space (s : string) : string :=
  match s with
  | String c s' => if isspace c then skip_space s' else s
  | EmptyString => s
  end.

Definition digit (c : ascii) : option Z :=
  let n := Z.of_nat (nat_of_ascii c) in
  if (48 <=? n) && (n <=? 57) then Some (n - 48) else None.

Fixpoint atoi_digits (s : string) (acc : Z) : Z :=
  match s with
  | String c s' =>
      match digit c with
      | Some d => atoi_digits s' (10 * acc + d)
      | None => acc
      end
  | EmptyString => acc
  end.

Section Atoi.
Context `{DataModel}.

(** [long] has the bits of [unsigned long]. *)
Definition strtol (s : string) : Z :=
  let v :=
    match skip_space s with
    | String "-" s' => - atoi_digits s' 0
    | String "+" s' => atoi_digits s' 0
    | s' => atoi_digits s' 0
    end in
  Z.max (- 2 ^ (ulong_bits - 1)) (Z.min v (2 ^ (ulong_bits - 1) - 1)).

Definition atoi_model (s : string) : Z := to_int (strtol s).
End Atoi.

(** A connection as the client loop of the harness sees it: the states that
    successive calls of [GetConnectionState] return ([settled] once [polls]
    is used up), its name, and for each round of the sending loop the
    messages [Process] hands to the handler and the value of
    [NumOutboundMessagesPending].  A message is its id and the [u32] it
    carries. *)
Record Connection := {
  polls : list ConnectionState;
  settled : ConnectionState;
  ToString : string;
  inbound : nat -> list (Z * Z);
  outbound_pending : nat -> Z
}.

Section Harness.
(** The library and the network behind the harness. *)
Variable StringToSocketTransportLayer : string -> SocketTransportLayer.
Variable atoi : string -> Z.
(** [network.StartServer]: null, or a server; [RunModalServer] on it hands
    the given messages to the handler and returns. *)
Variable StartServer : Z -> SocketTransportLayer -> option (list (Z * Z)).
(** [network.Connect]: null, or a connection. *)
Variable Connect : string -> Z -> SocketTransportLayer -> option Connection.

(** [NetworkApp::HandleMessage], on the member [lastMessageNumber]. *)
Definition HandleMessage (lastMessageNumber : Z) (msg : Z * Z)
  : list token * Z :=
  let '(messageId, recvMessageNumber) := msg in
  if negb (messageId =? 191) then ([], lastMessageNumber)
  else
    (if recvMessageNumber <=? lastMessageNumber
     then [Str "Message received out-of-order! Got "; Num recvMessageNumber;
           Str ", previously received was "; Num lastMessageNumber; Endl]
     else [Str "Prev "; Num lastMessageNumber; Str ", now ";
           Num recvMessageNumber; Endl],
     recvMessageNumber).

Fixpoint handle_all (lastMessageNumber : Z) (msgs : list (Z * Z))
  : list token * Z :=
  match msgs with
  | [] => ([], lastMessageNumber)
  | m :: msgs' =>
      let '(out, last) := HandleMessage lastMessageNumber m in
      let '(out', last') := handle_all last msgs' in
      (out ++ out', last')
  end.

(** [NetworkApp::ComputeContentID]. *)
Definition ComputeContentID (messageId : Z) : Z :=
  if messageId =? 191 then 1 else 0.

(** [NetworkApp::SendMessage]: the message carries the incremented
    counter. *)
Definition SendMessage (lastMessageNumber : Z) : Z := u32 (lastMessageNumber + 1).

Definition RunServer (port : Z) (transport : SocketTransportLayer)
    (lastMessageNumber : Z) : list token * Z :=
  match StartServer port transport with
  | None =>
      ([Str "Unable to start server in port "; Num port; Str "!"; Endl],
       lastMessageNumber)
  | Some msgs =>
      let '(out, last) := handle_all lastMessageNumber msgs in
      ([Str "Server waiting for connection in port "; Num port; Str "."; Endl]
         ++ out, last)
  end.

(** [while (connection->GetConnectionState() == ConnectionPending) Sleep]:
    the polls that are left when the loop ends, or nothing when the
    connection stays pending for ever. *)
Fixpoint wait_while_pending (ps : list ConnectionState)
    (settled : ConnectionState) : option (list ConnectionState) :=
  match ps with
  | [] => match settled with ConnectionPending => None | _ => Some [] end
  | ConnectionPending :: ps' => wait_while_pending ps' settled
  | _ :: ps' => Some ps'
  end.

(** The sending loop, from round [i] on, for [n] rounds. *)
Fixpoint send_loop (n : nat) (i : nat) (c : Connection)
    (lastMessageNumber : Z) : list token * Z :=
  match n with
  | O => ([], lastMessageNumber)
  | S n' =>
      let '(out, last) := handle_all lastMessageNumber (inbound c i) in
      let last :=
        if outbound_pending c i <? 1000 then SendMessage last else last in
      let '(out', last') := send_loop n' (S i) c last in
      (out ++ out', last')
  end.

Definition numMessagesToSend : Z := 100000.

Definition RunClient (address : string) (port : Z)
    (transport : SocketTransportLayer) (lastMessageNumber : Z)
  : option (list token * Z) :=
  match Connect address port transport with
  | None =>
      Some ([Str "Unable to connect to "; Str address; Str ":"; Num port;
             Str "."; Endl], lastMessageNumber)
  | Some connection =>
      let out := [Str "Waiting for connection.."; Endl] in
      match wait_while_pending (polls connection) (settled connection) with
      | None => None
      | Some rest =>
          match hd (settled connection) rest with
          | ConnectionOK =>
              let '(out', last) :=
                send_loop (Z.to_nat numMessagesToSend) 0 connection
                  lastMessageNumber in
              Some (out ++ [Str "Connected to "; Str (ToString connection);
                            Str "."; Endl] ++ out', last)
          | _ => Some (out ++ [Str "Failed to connect to server!"; Endl],
                       lastMessageNumber)
          end
      end
  end.

Definition PrintUsage : list token :=
  [Str "Usage: "; Endl;
   Str "       server tcp|udp port"; Endl;
   Str "       client tcp|udp hostname port"; Endl].

(** [main]: what it prints and the status it returns, or nothing when it
    does not return. *)
Definition main (argv : list string) : option (list token * Z) :=
  let argc := Z.of_nat (length argv) in
  let arg i := nth i argv "" in
  if argc <? 4 then Some (PrintUsage, 0)
  else
    (* EnableMemoryLeakLoggingAtExit() prints nothing before main returns *)
    match StringToSocketTransportLayer (arg 2%nat) with
    | InvalidTransportLayer =>
        Some ([Str "The second parameter is either 'tcp' or 'udp'!"; Endl], 0)
    | transport =>
        let lastMessageNumber := 0 in
        if _stricmp (arg 1%nat) "server" =? 0 then
          let port := ushort (atoi (arg 3%nat)) in
          let '(out, _) := RunServer port transport lastMessageNumber in
          Some (out, 0)
        else if _stricmp (arg 1%nat) "client" =? 0 then
          if argc <? 5 then Some (PrintUsage, 0)
          else
            let hostname := arg 3%nat in
            let port := ushort (atoi (arg 4%nat)) in
            match RunClient hostname port transport lastMessageNumber with
            | Some (out, _) => Some (out, 0)
            | None => None
            end
        else
          Some ([Str "The second parameter is either 'server' or 'client'!";
                 Endl], 0)
    end.

(** The ways an invocation can go wrong. *)
Definition usage_error (argv : list string) : Prop :=
  Z.of_nat (length argv) < 4 \/
  StringToSocketTransportLayer (nth 2 argv "") = InvalidTransportLayer \/
  (_stricmp (nth 1 argv "") "server" <> 0 /\
   (_stricmp (nth 1 argv "") "client" <> 0 \/ Z.of_nat (length argv) < 5)).

End Harness.

(** A network on which nothing can be started or reached. *)
Definition no_server (_ : Z) (_ : SocketTransportLayer) : option (list (Z * Z)) :=
  None.
Definition no_route (_ : string) (_ : Z) (_ : SocketTransportLayer)
  : option Connection := None.

(** The harness on a machine without network. *)
Definition main_offline `{DataModel} : list string -> option (list token * Z) :=
  main StringToSocketTransportLayer_model atoi_model no_server no_route.

End InOrderTest.

(** ** The rest of WaitFreeQueue.h *)
Module QueueMore.
Import Queue.

Section Searching.
Context `{DataModel} {T : Type} `{EqDecision T}.
(** What the literal [0] is as a [T]. *)
Variable zero : T.

(** The loop of [Contains], for [n] more values of [i]:
    when [*ItemAt(i) == item] it returns true. *)
Fixpoint Contains_loop (n : nat) (i : Z) (value : T) : M bool :=
  match n with
  | O => ret false
  | S n' =>
      x ← item i;
      if decide (x = value) then ret true
      else Contains_loop n' (i + 1) value
  end.

Definition Contains (value : T) : M bool :=
  n ← gets Size;
  Contains_loop (Z.to_nat (to_int n)) 0 value.

(** The inner loop of [ContainerUniqueAndNoNullElements], for [n] more
    values of [j]; false stands for [return false]. *)
Fixpoint Unique_inner (n : nat) (i j : Z) : M bool :=
  match n with
  | O => ret true
  | S n' =>
      x ← item (to_int i);
      y ← item (to_int j);
      if decide (x = y) then ret false
      else
        x' ← item (to_int i);
        if decide (x' = zero) then ret false
        else Unique_inner n' i (size_t (j + 1))
  end.

(** The outer loop, for [n] more values of [i]. *)
Fixpoint Unique_outer (n : nat) (i : Z) : M bool :=
  match n with
  | O => ret true
  | S n' =>
      sz ← gets Size;
      let j := size_t (i + 1) in
      go_on ← Unique_inner (Z.to_nat (sz - j)) i j;
      if go_on : bool then Unique_outer n' (size_t (i + 1))
      else ret false
  end.

Definition ContainerUniqueAndNoNullElements : M bool :=
  sz ← gets Size;
  Unique_outer (Z.to_nat sz) 0.

(** [TakeFront] called [n] times: the values it returns, in turn. *)
Fixpoint TakeFront_times (n : nat) : M (list T) :=
  match n with
  | O => ret []
  | S n' =>
      x ← TakeFront;
      xs ← TakeFront_times n';
      ret (x :: xs)
  end.

(** The two queues have arrays of the same length, and the same mask. *)
Definition same_array (q q' : WaitFreeQueue (T:=T)) : Prop :=
  maxElementsMask q' = maxElementsMask q /\
  length (data q') = length (data q).

(** The mutators that keep the array: all but [Resize],
    [DoubleCapacity] and [InsertWithResize]. *)
Definition keeps_array (o : op (T:=T)) : bool :=
  match o with
  | OpInsert _ | OpPopFront | OpTakeFront | OpClear | OpEraseItemAt _ => true
  | OpInsertWithResize _ | OpResize _ | OpDoubleCapacity => false
  end.
End Searching.

Section WithoutResize.
Context `{DataModel} {T : Type}.
Variable uninit : T.

End WithoutResize.
End QueueMore.

(** ** How far each thread is from the end of its call *)
Module SPSCMore.
Import Queue SPSC.

Section Progress.
Context {T : Type}.

(** The steps [Insert] still has to take. *)
Definition producer_left (pc : producer_pc (T:=T)) : nat :=
  match pc with
  | PIdle => 0
  | PReadTail _ _ => 3
  | PWrite _ _ _ => 2
  | PPublish _ _ => 1
  end.

(** The steps [Front], [*p] and [PopFront] still have to take, at most. *)
Definition consumer_left (pc : consumer_pc (T:=T)) : nat :=
  match pc with
  | CIdle => 0
  | CFrontHead _ | CFrontTail _ => 7
  | CFrontNonEmpty => 6
  | CHold _ => 5
  | CPop _ => 4
  | CPopHead _ _ | CPopTail _ _ => 3
  | CPopNonEmpty _ => 2
  | CPopNext _ _ => 1
  end.

(** The thread is between two calls. *)
Definition idle (t : thread) (s : state (T:=T)) : Prop :=
  match t with
  | Producer => ppc s = PIdle
  | Consumer => cpc s = CIdle
  end.

(** The steps a thread is from the end of its call, at most. *)
Definition steps_left (t : thread) (s : state (T:=T)) : nat :=
  match t with
  | Producer => producer_left (ppc s)
  | Consumer => consumer_left (cpc s)
  end.
End Progress.

Section Runs.
Context `{DataModel} {T : Type}.

(** A run in which thread [t] takes [n] steps, each of them inside a call,
    while the other thread takes any number of steps in between. *)
Inductive steps_inside_a_call (t : thread) : nat -> state (T:=T) -> state -> Prop :=
| inside_done s : steps_inside_a_call t 0 s s
| inside_own n s s' s'' :
    ~ idle t s -> step t s s' -> steps_inside_a_call t n s' s'' ->
    steps_inside_a_call t (S n) s s''
| inside_other n u s s' s'' :
    u <> t -> step u s s' -> steps_inside_a_call t n s' s'' ->
    steps_inside_a_call t n s s''.
End Runs.
End SPSCMore.

(** ** Reading the output of the harness *)
Module InOrderTestMore.
Import InOrderTest.
Local Open Scope string_scope.
Local Open Scope Z_scope.
Local Open Scope list_scope.

(** The token [HandleMessage] starts its line with when a number is not
    above the last one. *)
Definition is_out_of_order (t : token) : bool :=
  match t with
  | Str s => String.eqb s "Message received out-of-order! Got "
  | _ => false
  end.

(** How many times the output reports a message out of order. *)
Definition out_of_order_reports (out : list token) : nat :=
  length (filter (fun t => is_out_of_order t = true) out).

(** The numbers carried by the messages of the harness' own type, 191. *)
Fixpoint numbers (msgs : list (Z * Z)) : list Z :=
  match msgs with
  | [] => []
  | (messageId, n) :: msgs' =>
      if messageId =? 191 then n :: numbers msgs' else numbers msgs'
  end.

(** Each number is above the one before it, the first one above [last]. *)
Fixpoint ascending (last : Z) (ns : list Z) : Prop :=
  match ns with
  | [] => True
  | n :: ns' => last < n /\ ascending n ns'
  end.

(** The rounds of the sending loop, from round [i] on, in which the
    connection has room for a message. *)
Fixpoint rounds_with_room (n : nat) (i : nat) (c : Connection) : Z :=
  match n with
  | O => 0
  | S n' =>
      (if outbound_pending c i <? 1000 then 1 else 0) + rounds_with_room n' (S i) c
  end.

(** All the calls of [GetConnectionState] return [ConnectionPending]. *)
Definition pending_for_ever (c : Connection) : Prop :=
  Forall (fun s => s = ConnectionPending) (polls c) /\
  settled c = ConnectionPending.
End InOrderTestMore.

(** * Proofs *)

Import Queue SPSC.

(** ** Arithmetic of the machine integers *)
Section Arith.
Context `{DataModel}.

Lemma pow2_pos k : 0 <= k -> 0 < 2 ^ k.
Proof. intros. apply Z.pow_pos_nonneg; lia. Qed.

Lemma ulong_bits_nonneg : 0 <= ulong_bits.
Proof. pose proof ulong_bits_ge. lia. Qed.

Lemma size_t_bits_nonneg : 0 <= size_t_bits.
Proof. pose proof ulong_bits_ge. pose proof size_t_bits_ge. lia. Qed.

Lemma pow2_le_ulong k : 0 <= k <= 32 -> 2 ^ k <= 2 ^ ulong_bits.
Proof. intros. pose proof ulong_bits_ge. apply Z.pow_le_mono_r; lia. Qed.

Lemma pow2_le_size_t k : 0 <= k <= 32 -> 2 ^ k <= 2 ^ size_t_bits.
Proof.
  intros. pose proof ulong_bits_ge. pose proof size_t_bits_ge.
  apply Z.pow_le_mono_r; lia.
Qed.

Lemma pow2_mono j k : 0 <= j <= k -> 2 ^ j <= 2 ^ k.
Proof. intros. apply Z.pow_le_mono_r; lia. Qed.

Lemma ulong_small x : 0 <= x < 2 ^ 32 -> ulong x = x.
Proof.
  intros. unfold ulong. apply Z.mod_small.
  pose proof (pow2_le_ulong 32). lia.
Qed.

Lemma size_t_small x : 0 <= x < 2 ^ 32 -> size_t x = x.
Proof.
  intros. unfold size_t. apply Z.mod_small.
  pose proof (pow2_le_size_t 32). lia.
Qed.


Lemma to_int_small x : 0 <= x < 2 ^ 31 -> to_int x = x.
Proof.
  intros. unfold to_int. rewrite Z.mod_small by lia.
  destruct (Z.ltb_spec x (2 ^ 31)); lia.
Qed.

Lemma land_mask k x : 0 <= k -> Z.land x (2 ^ k - 1) = x mod 2 ^ k.
Proof.
  intros. rewrite <- Z.land_ones by done. by rewrite Z.ones_equiv, Z.sub_1_r.
Qed.

Lemma ulong_mod_pow2 k x : 0 <= k <= 32 -> ulong x mod 2 ^ k = x mod 2 ^ k.
Proof.
  intros. unfold ulong. pose proof ulong_bits_ge.
  apply Z.mod_mod_divide.
  exists (2 ^ (ulong_bits - k)). rewrite <- Z.pow_add_r by lia. f_equal; lia.
Qed.

Lemma mod_add_once C x : 0 < C -> 0 <= x < 2 * C ->
  x mod C = if x <? C then x else x - C.
Proof.
  intros. destruct (Z.ltb_spec x C).
  - apply Z.mod_small; lia.
  - symmetry. apply (Z.mod_unique _ _ 1); lia.
Qed.

Lemma mod_sub_once C x : 0 < C -> - C <= x < C ->
  x mod C = if 0 <=? x then x else x + C.
Proof.
  intros. destruct (Z.leb_spec 0 x).
  - apply Z.mod_small; lia.
  - symmetry. apply (Z.mod_unique _ _ (-1)); lia.
Qed.

(** Arithmetic in [unsigned long] followed by [& mask] is arithmetic modulo
    the array length. *)
Section Modulo.
Variable k : Z.
Hypothesis Hk : 0 <= k <= 32.

Lemma mod_ulong x : ulong x mod 2 ^ k = x mod 2 ^ k.
Proof. by apply ulong_mod_pow2. Qed.

Lemma mod_uadd a b : uadd a b mod 2 ^ k = (a mod 2 ^ k + b mod 2 ^ k) mod 2 ^ k.
Proof. unfold uadd. rewrite mod_ulong. apply Zplus_mod. Qed.

Lemma mod_usub a b : usub a b mod 2 ^ k = (a mod 2 ^ k - b mod 2 ^ k) mod 2 ^ k.
Proof. unfold usub. rewrite mod_ulong. apply Zminus_mod. Qed.

Lemma land_ulong x : Z.land (ulong x) (2 ^ k - 1) = x mod 2 ^ k.
Proof. rewrite land_mask by lia. apply mod_ulong. Qed.

Lemma mod_mask : (2 ^ k - 1) mod 2 ^ k = (- 1) mod 2 ^ k.
Proof.
  replace (2 ^ k - 1) with (-1 + 1 * 2 ^ k) by lia. apply Z.mod_add.
  pose proof (pow2_pos k). lia.
Qed.
End Modulo.
End Arith.

(** ** Indices modulo the length of the array *)
#[local] Existing Instances eqm_setoid Zplus_eqm Zminus_eqm Zmult_eqm Zopp_eqm.

Section ModuloLength.
Context `{DataModel}.
Variable k : Z.
Hypothesis Hk : 0 <= k <= 32.

Lemma ulong_eqm x : eqm (2 ^ k) (ulong x) x.
Proof. by apply mod_ulong. Qed.

Lemma mask_eqm : eqm (2 ^ k) (2 ^ k - 1) (-1).
Proof. by apply mod_mask. Qed.

Lemma eqm_mod a b : eqm (2 ^ k) a b -> a mod 2 ^ k = b mod 2 ^ k.
Proof. done. Qed.
End ModuloLength.

(** Proves [Z.land e (2^k - 1) = e' mod 2^k] where [e] is built with [uadd],
    [usub] and [ulong] and [e'] is the same expression over [Z]. *)
Ltac index_arith k :=
  unfold uadd, usub; rewrite (land_ulong k) by lia;
  apply (eqm_mod k);
  rewrite ?(ulong_eqm k), ?(mask_eqm k) by lia;
  unfold eqm; f_equal; lia.

Section QueueBasics.
Context `{DataModel} {T : Type}.
Implicit Types q : WaitFreeQueue (T:=T).

Lemma wf_inv q :
  wf q ->
  exists k, 0 <= k <= 31 /\ maxElementsMask q = 2 ^ k - 1 /\
    Z.of_nat (length (data q)) = 2 ^ k /\
    0 <= head q < 2 ^ k /\ 0 <= tail q < 2 ^ k /\ 0 < 2 ^ k <= 2 ^ 31.
Proof.
  intros [(k & Hk & Hm) Hd Hh Ht]. exists k.
  pose proof (pow2_pos k). pose proof (pow2_mono k 31). lia.
Qed.

Lemma wf_check_sound q : wf_check q = true -> wf q.
Proof.
  unfold wf_check. rewrite !andb_true_iff.
  rewrite !Z.ltb_lt, !Z.leb_le, !Z.eqb_eq.
  intros [[[[[[[HC Hp] Hl] Hd] Hh0] Hh] Ht0] Ht].
  split; try lia.
  exists (Z.log2 (maxElementsMask q + 1)).
  pose proof (Z.log2_nonneg (maxElementsMask q + 1)). lia.
Qed.

Section Indices.
Variable k : Z.
Hypothesis Hk : 0 <= k <= 31.
Lemma next_index x : Z.land (uadd x 1) (2 ^ k - 1) = (x + 1) mod 2 ^ k.
Proof. index_arith k. Qed.

Lemma prev_index x :
  Z.land (usub (uadd (uadd x (2 ^ k - 1)) 1) 1) (2 ^ k - 1) = (x - 1) mod 2 ^ k.
Proof. index_arith k. Qed.

Lemma item_index h i : Z.land (uadd h (ulong i)) (2 ^ k - 1) = (h + i) mod 2 ^ k.
Proof. index_arith k. Qed.

Lemma move_front_src h idx i :
  Z.land (usub (usub (uadd (uadd (uadd h (ulong idx)) (2 ^ k - 1)) 1) (ulong i)) 1) (2 ^ k - 1)
  = (h + (idx - i - 1)) mod 2 ^ k.
Proof. index_arith k. Qed.

Lemma move_front_dst h idx i :
  Z.land (usub (uadd (uadd (uadd h (ulong idx)) (2 ^ k - 1)) 1) (ulong i)) (2 ^ k - 1)
  = (h + (idx - i)) mod 2 ^ k.
Proof. index_arith k. Qed.

Lemma move_back_src h idx i :
  Z.land (uadd (uadd (uadd h (ulong idx)) (ulong i)) 1) (2 ^ k - 1)
  = (h + (idx + i + 1)) mod 2 ^ k.
Proof. index_arith k. Qed.

Lemma move_back_dst h idx i :
  Z.land (uadd (uadd h (ulong idx)) (ulong i)) (2 ^ k - 1) = (h + (idx + i)) mod 2 ^ k.
Proof. index_arith k. Qed.
End Indices.
End QueueBasics.

(** ** What the observers return *)
Ltac run :=
  cbv beta iota delta
    [mbind mret M_bind M_ret bind ret gets modify lift undefined assert
     data_load data_store deref item].

Section QueueObservers.
Context `{DataModel} {T : Type}.
Implicit Types q : WaitFreeQueue (T:=T).

Lemma Size_eq q :
  wf q -> Size q = (tail q - head q) mod (maxElementsMask q + 1).
Proof.
  intros (k & Hk & Hm & Hd & Hh & Ht & HC)%wf_inv.
  unfold Size, uadd, usub. rewrite Hm.
  replace (2 ^ k - 1 + 1) with (2 ^ k) by lia.
  rewrite mod_sub_once by lia.
  destruct (Z.geb_spec (tail q) (head q)), (Z.leb_spec 0 (tail q - head q));
    try lia.
  - apply ulong_small; lia.
  - rewrite (ulong_small (2 ^ k)), (ulong_small (head q - tail q)) by lia.
    rewrite ulong_small; lia.
Qed.

Lemma Size_range q : wf q -> 0 <= Size q <= maxElementsMask q.
Proof.
  intros Hwf. rewrite Size_eq by done.
  destruct (wf_inv q Hwf) as (k & Hk & Hm & Hd & Hh & Ht & HC).
  pose proof (Z.mod_pos_bound (tail q - head q) (maxElementsMask q + 1)). lia.
Qed.

Lemma Size_cases q :
  wf q ->
  Size q = if head q <=? tail q then tail q - head q
           else tail q - head q + (maxElementsMask q + 1).
Proof.
  intros Hwf. rewrite Size_eq by done.
  destruct (wf_inv q Hwf) as (k & Hk & Hm & Hd & Hh & Ht & HC).
  rewrite mod_sub_once by lia.
  destruct (Z.leb_spec 0 (tail q - head q)), (Z.leb_spec (head q) (tail q)); lia.
Qed.

Lemma ItemAt_eq q i :
  wf q -> ItemAt i q = slot (Z.of_nat (phys q i)).
Proof.
  intros (k & Hk & Hm & Hd & Hh & Ht & HC)%wf_inv.
  unfold ItemAt, phys. rewrite Hm, item_index by done.
  replace (2 ^ k - 1 + 1) with (2 ^ k) by lia.
  pose proof (Z.mod_pos_bound (head q + i) (2 ^ k)). f_equal. lia.
Qed.

Lemma phys_lt q j : wf q -> (phys q j < length (data q))%nat.
Proof.
  intros (k & Hk & Hm & Hd & Hh & Ht & HC)%wf_inv. unfold phys.
  pose proof (Z.mod_pos_bound (head q + j) (maxElementsMask q + 1)). lia.
Qed.

Lemma phys_inj q i j :
  wf q -> 0 <= i <= maxElementsMask q -> 0 <= j <= maxElementsMask q ->
  phys q i = phys q j -> i = j.
Proof.
  intros Hwf Hi Hj. unfold phys.
  destruct (wf_inv q Hwf) as (k & Hk & Hm & Hd & Hh & Ht & HC).
  set (C := maxElementsMask q + 1).
  pose proof (Z.mod_pos_bound (head q + i) C).
  pose proof (Z.mod_pos_bound (head q + j) C).
  intros Heq. assert ((head q + i) mod C = (head q + j) mod C) as Hm' by lia.
  rewrite !(mod_add_once C) in Hm' by lia.
  destruct (Z.ltb_spec (head q + i) C), (Z.ltb_spec (head q + j) C); lia.
Qed.

Lemma array_load_phys (d : list T) n : array_load d (Z.of_nat n) = d !! n.
Proof.
  unfold array_load. destruct (Z.leb_spec 0 (Z.of_nat n)); [|lia].
  by rewrite Nat2Z.id.
Qed.

Lemma item_eq q i :
  wf q -> item i q = (fun x => (x, q)) <$> data q !! phys q i.
Proof.
  intros Hwf. run. rewrite ItemAt_eq by done. run.
  rewrite array_load_phys. by destruct (data q !! phys q i).
Qed.

(** The sequence a well-formed queue holds, slot by slot. *)
Lemma elements_lookup q l :
  wf q ->
  elements q = Some l <->
  length l = Z.to_nat (Size q) /\
  forall i : nat, Z.of_nat i < Size q -> l !! i = data q !! phys q (Z.of_nat i).
Proof.
  intros Hwf. unfold elements. rewrite mapM_Some, Forall2_same_length_lookup.
  rewrite length_seqZ. split.
  - intros [Hlen Hl]. split; [done|]. intros i Hi.
    destruct (lookup_lt_is_Some_2 l i) as [y Hy]; [lia|].
    specialize (Hl i (Z.of_nat i) y). rewrite lookup_seqZ_lt in Hl by lia.
    specialize (Hl eq_refl Hy). rewrite item_eq in Hl by done.
    rewrite Hy. destruct (data q !! phys q (Z.of_nat i)); naive_solver.
  - intros [Hlen Hl]. split; [done|]. intros i x y [-> Hi]%lookup_seqZ Hy.
    rewrite item_eq by done. rewrite Z.add_0_l, <- Hl, Hy by lia. done.
Qed.

Lemma elements_is_Some q : wf q -> is_Some (elements q).
Proof.
  intros Hwf. unfold elements. apply mapM_is_Some_2, Forall_forall.
  intros i _. simpl. rewrite item_eq by done.
  destruct (lookup_lt_is_Some_2 (data q) (phys q i)) as [x ->]; [|done].
  by apply phys_lt.
Qed.

Lemma elements_length q l :
  wf q -> elements q = Some l -> Z.of_nat (length l) = Size q.
Proof.
  intros Hwf [Hl _]%elements_lookup; [|done].
  pose proof (Size_range q Hwf). lia.
Qed.

Lemma elements_eq q q' :
  wf q -> wf q' -> Size q' = Size q ->
  (forall i : nat, Z.of_nat i < Size q ->
     data q' !! phys q' (Z.of_nat i) = data q !! phys q (Z.of_nat i)) ->
  elements q' = elements q.
Proof.
  intros Hwf Hwf' HS Hl. destruct (elements_is_Some q Hwf) as [l Hq].
  rewrite Hq. apply elements_lookup in Hq as [Hlen Hq]; [|done].
  apply elements_lookup; [done|]. rewrite HS. split; [done|].
  intros i Hi. rewrite Hq, Hl by done. done.
Qed.
End QueueObservers.

(** ** [Insert], [Front] and [PopFront] *)
Section QueueInsertPop.
Context `{DataModel} {T : Type}.
Implicit Types q : WaitFreeQueue (T:=T).
Implicit Types d : list T.

Lemma array_store_Some (d : list T) i v :
  0 <= i < Z.of_nat (length d) ->
  array_store d i v = Some (<[Z.to_nat i := v]> d).
Proof.
  intros. unfold array_store.
  destruct (Z.leb_spec 0 i), (Z.ltb_spec i (Z.of_nat (length d))); simpl; lia || done.
Qed.

Lemma array_store_None (d : list T) i v :
  Z.of_nat (length d) <= i -> array_store d i v = None.
Proof.
  intros. unfold array_store.
  destruct (Z.leb_spec 0 i), (Z.ltb_spec i (Z.of_nat (length d))); simpl; lia || done.
Qed.

Lemma Insert_run q v :
  wf q ->
  Insert v q =
    if (tail q + 1) mod (maxElementsMask q + 1) =? head q
    then Some (false, q)
    else Some (true,
               {| data := <[Z.to_nat (tail q) := v]> (data q);
                  maxElementsMask := maxElementsMask q;
                  head := head q;
                  tail := (tail q + 1) mod (maxElementsMask q + 1) |}).
Proof.
  intros (k & Hk & Hm & Hd & Hh & Ht & HC)%wf_inv.
  unfold Insert. run. rewrite Hm, next_index by done.
  replace (2 ^ k - 1 + 1) with (2 ^ k) by lia.
  destruct (_ =? _); [done|].
  rewrite array_store_Some by lia.
  unfold set_tail, set_data. simpl. by rewrite Hm.
Qed.

Lemma Insert_wf q v q' b :
  wf q -> Insert v q = Some (b, q') -> wf q'.
Proof.
  intros Hwf. rewrite Insert_run by done.
  destruct (wf_inv q Hwf) as (k & Hk & Hm & Hd & Hh & Ht & HC).
  destruct (_ =? _); intros [= <- <-]; [done|].
  pose proof (Z.mod_pos_bound (tail q + 1) (maxElementsMask q + 1)).
  destruct Hwf. split; simpl; rewrite ?length_insert; try done; lia.
Qed.

Lemma Insert_true q v q' :
  wf q -> Insert v q = Some (true, q') ->
  Size q' = Size q + 1 /\
  forall l, elements q = Some l -> elements q' = Some (l ++ [v]).
Proof.
  intros Hwf Hq'. pose proof (Insert_wf _ _ _ _ Hwf Hq') as Hwf'.
  rewrite Insert_run in Hq' by done.
  destruct (wf_inv q Hwf) as (k & Hk & Hm & Hd & Hh & Ht & HC).
  destruct (Z.eqb_spec ((tail q + 1) mod (maxElementsMask q + 1)) (head q))
    as [|Hne]; [done|].
  injection Hq' as <-.
  assert (Size {| data := <[Z.to_nat (tail q) := v]> (data q);
                  maxElementsMask := maxElementsMask q;
                  head := head q;
                  tail := (tail q + 1) mod (maxElementsMask q + 1) |}
          = Size q + 1) as HS.
  { rewrite !Size_cases by done. simpl.
    rewrite mod_add_once in * by lia.
    destruct (Z.ltb_spec (tail q + 1) (maxElementsMask q + 1));
    repeat match goal with |- context [?a <=? ?b] =>
      destruct (Z.leb_spec a b) end; lia. }
  split; [done|]. intros l Hl.
  apply elements_lookup in Hl as [Hlen Hl]; [|done].
  apply elements_lookup; [done|]. rewrite HS.
  pose proof (Size_range q Hwf) as HSr.
  pose proof (Size_range _ Hwf') as HSr'. rewrite HS in HSr'. simpl in HSr'.
  split; [rewrite length_app; simpl; lia|].
  intros i Hi. unfold phys at 1. simpl. fold (phys q (Z.of_nat i)).
  assert (Z.to_nat (tail q) = phys q (Size q)) as Htail.
  { unfold phys. f_equal. rewrite Size_eq, Zplus_mod_idemp_r by done.
    replace (head q + (tail q - head q)) with (tail q) by lia.
    rewrite Z.mod_small; lia. }
  destruct (decide (Z.of_nat i = Size q)) as [Heq|Hne'].
  - rewrite Heq, <- Htail, list_lookup_insert_eq by lia.
    rewrite lookup_app_r by lia.
    replace (i - length l)%nat with 0%nat by lia. done.
  - rewrite list_lookup_insert_ne, lookup_app_l by
      (try lia; rewrite Htail; intros ?%phys_inj; done || lia).
    apply Hl. lia.
Qed.

Lemma Front_eq q :
  Front q = if decide (head q = tail q) then null else slot (head q).
Proof.
  unfold Front. destruct (Z.eqb_spec (head q) (tail q)), (decide _); done.
Qed.

Lemma Size_0 q : wf q -> (Size q = 0 <-> head q = tail q).
Proof.
  intros Hwf. rewrite Size_cases by done.
  destruct (wf_inv q Hwf) as (k & Hk & Hm & Hd & Hh & Ht & HC).
  destruct (Z.leb_spec (head q) (tail q)); lia.
Qed.

Lemma phys_0 q : wf q -> phys q 0 = Z.to_nat (head q).
Proof.
  intros (k & Hk & Hm & Hd & Hh & Ht & HC)%wf_inv. unfold phys.
  rewrite Z.add_0_r, Z.mod_small; lia.
Qed.

(** The queue with its head (resp. tail) moved and its array replaced. *)
Lemma advance_head_wf q d :
  wf q -> length d = length (data q) ->
  wf (mkQueue d (maxElementsMask q)
        ((head q + 1) mod (maxElementsMask q + 1)) (tail q)).
Proof.
  intros Hwf Hd'. destruct (wf_inv q Hwf) as (k & Hk & Hm & Hd & Hh & Ht & HC).
  pose proof (Z.mod_pos_bound (head q + 1) (maxElementsMask q + 1)).
  destruct Hwf. split; simpl; try done; lia.
Qed.

Lemma advance_head_Size q d :
  wf q -> head q <> tail q ->
  Size (mkQueue d (maxElementsMask q)
          ((head q + 1) mod (maxElementsMask q + 1)) (tail q)) = Size q - 1.
Proof.
  intros Hwf Hne.
  pose proof (advance_head_wf q (data q) Hwf eq_refl) as Hwf'.
  destruct (wf_inv q Hwf) as (k & Hk & Hm & Hd & Hh & Ht & HC).
  change (Size (mkQueue d _ _ _)) with
    (Size (mkQueue (data q) (maxElementsMask q)
             ((head q + 1) mod (maxElementsMask q + 1)) (tail q))).
  rewrite !Size_cases by done. simpl. rewrite mod_add_once by lia.
  destruct (Z.ltb_spec (head q + 1) (maxElementsMask q + 1));
    repeat match goal with |- context [?a <=? ?b] =>
      destruct (Z.leb_spec a b) end; lia.
Qed.

Lemma advance_head_phys q d j :
  wf q ->
  phys (mkQueue d (maxElementsMask q)
          ((head q + 1) mod (maxElementsMask q + 1)) (tail q)) j
  = phys q (j + 1).
Proof.
  intros Hwf. unfold phys. simpl. rewrite Zplus_mod_idemp_l.
  do 2 f_equal. lia.
Qed.

Lemma retreat_tail_wf q d :
  wf q -> length d = length (data q) ->
  wf (mkQueue d (maxElementsMask q) (head q)
        ((tail q - 1) mod (maxElementsMask q + 1))).
Proof.
  intros Hwf Hd'. destruct (wf_inv q Hwf) as (k & Hk & Hm & Hd & Hh & Ht & HC).
  pose proof (Z.mod_pos_bound (tail q - 1) (maxElementsMask q + 1)).
  destruct Hwf. split; simpl; try done; lia.
Qed.

Lemma retreat_tail_Size q d :
  wf q -> head q <> tail q ->
  Size (mkQueue d (maxElementsMask q) (head q)
          ((tail q - 1) mod (maxElementsMask q + 1))) = Size q - 1.
Proof.
  intros Hwf Hne.
  pose proof (retreat_tail_wf q (data q) Hwf eq_refl) as Hwf'.
  destruct (wf_inv q Hwf) as (k & Hk & Hm & Hd & Hh & Ht & HC).
  change (Size (mkQueue d _ _ _)) with
    (Size (mkQueue (data q) (maxElementsMask q) (head q)
             ((tail q - 1) mod (maxElementsMask q + 1)))).
  rewrite !Size_cases by done. simpl. rewrite mod_sub_once by lia.
  destruct (Z.leb_spec 0 (tail q - 1));
    repeat match goal with |- context [?a <=? ?b] =>
      destruct (Z.leb_spec a b) end; lia.
Qed.

Lemma PopFront_run q :
  wf q ->
  PopFront q =
    Some (tt, if decide (head q = tail q) then q
              else set_head ((head q + 1) mod (maxElementsMask q + 1)) q).
Proof.
  intros (k & Hk & Hm & Hd & Hh & Ht & HC)%wf_inv.
  unfold PopFront. run.
  destruct (Z.eqb_spec (head q) (tail q)), (decide _); try done.
  rewrite Hm, next_index by done.
  replace (2 ^ k - 1 + 1) with (2 ^ k) by lia.
  pose proof (Z.mod_pos_bound (head q + 1) (2 ^ k)).
  rewrite size_t_small, ulong_small by lia. done.
Qed.

Lemma elements_nil q : wf q -> head q = tail q -> elements q = Some [].
Proof.
  intros Hwf Heq%Size_0; [|done]. unfold elements. by rewrite Heq.
Qed.

Lemma elements_advance_head q l :
  wf q -> head q <> tail q -> elements q = Some l ->
  elements (set_head ((head q + 1) mod (maxElementsMask q + 1)) q)
  = Some (drop 1 l).
Proof.
  intros Hwf Hne [Hlen Hl]%elements_lookup; [|done].
  pose proof (advance_head_wf q (data q) Hwf eq_refl) as Hwf'.
  pose proof (advance_head_Size q (data q) Hwf Hne) as HS.
  pose proof (Size_range q Hwf).
  apply elements_lookup; [done|]. unfold set_head. rewrite HS.
  split; [rewrite length_drop; lia|].
  intros i Hi. rewrite advance_head_phys, lookup_drop by done. simpl.
  rewrite Hl by lia. do 2 f_equal. lia.
Qed.
End QueueInsertPop.

(** ** [EraseItemAt] *)
Section QueueErase.
Context `{DataModel} {T : Type}.
Implicit Types q : WaitFreeQueue (T:=T).
Implicit Types d : list T.

Lemma set_data_wf q d : wf q -> length d = length (data q) -> wf (set_data d q).
Proof. intros [] Hd. split; simpl; try done. lia. Qed.

(** One slot copied onto another. *)
Lemma copy_slot q (src dst : Z) :
  wf q ->
  (x ← data_load (Z.of_nat (phys q src)); data_store (Z.of_nat (phys q dst)) x) q
  = (fun x => (tt, set_data (<[phys q dst := x]> (data q)) q))
      <$> data q !! phys q src.
Proof.
  intros Hwf. run. rewrite array_load_phys.
  destruct (lookup_lt_is_Some_2 (data q) (phys q src)) as [x ->];
    [by apply phys_lt|]. simpl.
  pose proof (phys_lt q dst Hwf).
  rewrite array_store_Some, Nat2Z.id by lia. done.
Qed.

Lemma of_nat_phys q j :
  Z.of_nat (phys q j) = (head q + j) mod (maxElementsMask q + 1) \/
  maxElementsMask q + 1 <= 0.
Proof.
  unfold phys. destruct (Z_lt_le_dec 0 (maxElementsMask q + 1)); [left|by right].
  pose proof (Z.mod_pos_bound (head q + j) (maxElementsMask q + 1)). lia.
Qed.

Lemma EraseItemAtMoveFront_body_run q index i :
  wf q ->
  EraseItemAtMoveFront_body index i q
  = (fun x => (tt, set_data (<[phys q (index - i) := x]> (data q)) q))
      <$> data q !! phys q (index - i - 1).
Proof.
  intros Hwf. rewrite <- copy_slot by done.
  destruct (wf_inv q Hwf) as (k & Hk & Hm & Hd & Hh & Ht & HC).
  unfold EraseItemAtMoveFront_body. run.
  rewrite Hm, move_front_src, move_front_dst by done.
  destruct (of_nat_phys q (index - i - 1)) as [->|]; [|lia].
  destruct (of_nat_phys q (index - i)) as [->|]; [|lia].
  rewrite Hm. replace (2 ^ k - 1 + 1) with (2 ^ k) by lia. done.
Qed.

Lemma EraseItemAtMoveBack_body_run q index i :
  wf q ->
  EraseItemAtMoveBack_body index i q
  = (fun x => (tt, set_data (<[phys q (index + i) := x]> (data q)) q))
      <$> data q !! phys q (index + i + 1).
Proof.
  intros Hwf. rewrite <- copy_slot by done.
  destruct (wf_inv q Hwf) as (k & Hk & Hm & Hd & Hh & Ht & HC).
  unfold EraseItemAtMoveBack_body. run.
  rewrite Hm, move_back_src, move_back_dst by done.
  destruct (of_nat_phys q (index + i + 1)) as [->|]; [|lia].
  destruct (of_nat_phys q (index + i)) as [->|]; [|lia].
  rewrite Hm. replace (2 ^ k - 1 + 1) with (2 ^ k) by lia. done.
Qed.

(** The loop of [EraseItemAtMoveFront], from iteration [i0] on: the
    elements at positions [0 .. index-i0-1] move up by one slot. *)
Lemma move_front_loop index n : forall i0 q,
  wf q -> 0 <= i0 -> i0 + Z.of_nat n = index -> index <= maxElementsMask q ->
  exists d,
    for_loop n i0 (EraseItemAtMoveFront_body index) q = Some (tt, set_data d q) /\
    length d = length (data q) /\
    forall j, 0 <= j <= maxElementsMask q ->
      d !! phys q j = if decide (0 < j <= index - i0)
                      then data q !! phys q (j - 1) else data q !! phys q j.
Proof.
  induction n as [|n IH]; intros i0 q Hwf Hi0 Hn Hidx.
  - exists (data q). split; [by destruct q|]. split; [done|].
    intros j Hj. case_decide; [lia|done].
  - simpl. run. rewrite EraseItemAtMoveFront_body_run by done.
    destruct (lookup_lt_is_Some_2 (data q) (phys q (index - i0 - 1))) as [x Hx];
      [by apply phys_lt|].
    rewrite Hx. simpl.
    set (q1 := set_data _ q).
    assert (wf q1) as Hwf1 by (apply set_data_wf; [done|by rewrite length_insert]).
    destruct (IH (i0 + 1) q1 Hwf1) as (d & Hrun & Hlen & Hd);
      [change (maxElementsMask q1) with (maxElementsMask q); lia..|].
    exists d. split; [exact Hrun|]. split.
    { rewrite Hlen. apply length_insert. }
    intros j Hj. specialize (Hd j Hj).
    change (phys q1) with (phys q) in Hd. rewrite Hd. simpl.
    pose proof (phys_lt q (index - i0) Hwf).
    repeat case_decide; try lia.
    + rewrite list_lookup_insert_ne; [done|].
      intros ?%phys_inj; done || lia.
    + assert (j = index - i0) as -> by lia.
      rewrite list_lookup_insert_eq by done.
      rewrite <- Hx. do 2 f_equal. 
    + rewrite list_lookup_insert_ne; [done|].
      intros ?%phys_inj; done || lia.
Qed.

(** The loop of [EraseItemAtMoveBack], from iteration [i0] on: the
    elements at positions [index+i0+1 .. index+i0+n] move down by one
    slot. *)
Lemma move_back_loop index n : forall i0 q,
  wf q -> 0 <= i0 -> 0 <= index ->
  index + i0 + Z.of_nat n <= maxElementsMask q ->
  exists d,
    for_loop n i0 (EraseItemAtMoveBack_body index) q = Some (tt, set_data d q) /\
    length d = length (data q) /\
    forall j, 0 <= j <= maxElementsMask q ->
      d !! phys q j = if decide (index + i0 <= j < index + i0 + Z.of_nat n)
                      then data q !! phys q (j + 1) else data q !! phys q j.
Proof.
  induction n as [|n IH]; intros i0 q Hwf Hi0 Hidx Hn.
  - exists (data q). split; [by destruct q|]. split; [done|].
    intros j Hj. case_decide; [lia|done].
  - simpl. run. rewrite EraseItemAtMoveBack_body_run by done.
    destruct (lookup_lt_is_Some_2 (data q) (phys q (index + i0 + 1))) as [x Hx];
      [by apply phys_lt|].
    rewrite Hx. simpl.
    set (q1 := set_data _ q).
    assert (wf q1) as Hwf1 by (apply set_data_wf; [done|by rewrite length_insert]).
    destruct (IH (i0 + 1) q1 Hwf1) as (d & Hrun & Hlen & Hd);
      [change (maxElementsMask q1) with (maxElementsMask q); lia..|].
    exists d. split; [exact Hrun|]. split.
    { rewrite Hlen. apply length_insert. }
    intros j Hj. specialize (Hd j Hj).
    change (phys q1) with (phys q) in Hd. rewrite Hd. simpl.
    pose proof (phys_lt q (index + i0) Hwf).
    repeat case_decide; try lia.
    + rewrite list_lookup_insert_ne; [done|].
      intros ?%phys_inj; done || lia.
    + assert (j = index + i0) as -> by lia.
      rewrite list_lookup_insert_eq by done. by rewrite <- Hx.
    + rewrite list_lookup_insert_ne; [done|].
      intros ?%phys_inj; done || lia.
Qed.

Lemma lookup_elements q l j :
  wf q -> elements q = Some l -> 0 <= j < Size q ->
  data q !! phys q j = l !! Z.to_nat j.
Proof.
  intros Hwf [_ Hl]%elements_lookup Hj; [|done].
  rewrite Hl, Z2Nat.id by lia. done.
Qed.

Lemma EraseItemAtMoveFront_spec q l index :
  wf q -> elements q = Some l -> 0 <= index < Size q ->
  exists q',
    EraseItemAtMoveFront index q = Some (tt, q') /\ wf q' /\
    Size q' = Size q - 1 /\
    elements q' = Some (delete (Z.to_nat index) l).
Proof.
  intros Hwf Hl Hidx. pose proof (Size_range q Hwf) as HS.
  destruct (move_front_loop index (Z.to_nat index) 0 q) as (d & Hrun & Hlen & Hd);
    [done || lia..|].
  destruct (wf_inv q Hwf) as (k & Hk & Hm & Hdl & Hh & Ht & HC).
  assert (head q <> tail q) as Hne by (rewrite <- Size_0 by done; lia).
  exists (mkQueue d (maxElementsMask q)
            ((head q + 1) mod (maxElementsMask q + 1)) (tail q)).
  split.
  { unfold EraseItemAtMoveFront, for_int. run. rewrite Hrun. simpl.
    rewrite Hm, next_index by done. unfold set_head. simpl. rewrite Hm.
    by replace (2 ^ k - 1 + 1) with (2 ^ k) by lia. }
  pose proof (advance_head_wf q d Hwf Hlen) as Hwf'.
  pose proof (advance_head_Size q d Hwf Hne) as HS'.
  split; [done|]. split; [done|].
  pose proof (elements_length q l Hwf Hl) as Hlen'.
  apply elements_lookup; [done|]. rewrite HS'. split.
  { rewrite length_delete by (apply lookup_lt_is_Some_2; lia). lia. }
  intros i Hi. rewrite advance_head_phys by done. simpl.
  rewrite Hd by lia. rewrite list_lookup_delete.
  repeat case_decide; try lia.
  - rewrite (lookup_elements q l) by (done || lia). f_equal. lia.
  - rewrite (lookup_elements q l) by (done || lia). f_equal. lia.
Qed.

Lemma EraseItemAtMoveBack_spec q l index :
  wf q -> elements q = Some l -> 0 <= index < Size q ->
  exists q',
    EraseItemAtMoveBack index q = Some (tt, q') /\ wf q' /\
    Size q' = Size q - 1 /\
    elements q' = Some (delete (Z.to_nat index) l).
Proof.
  intros Hwf Hl Hidx. pose proof (Size_range q Hwf) as HS.
  destruct (wf_inv q Hwf) as (k & Hk & Hm & Hdl & Hh & Ht & HC).
  assert (to_int (usub (usub (Size q) 1) (ulong index)) = Size q - 1 - index)
    as Hcount.
  { unfold usub. rewrite (ulong_small index), (ulong_small (Size q - 1)) by lia.
    rewrite ulong_small, to_int_small; lia. }
  destruct (move_back_loop index (Z.to_nat (Size q - 1 - index)) 0 q)
    as (d & Hrun & Hlen & Hd); [done || lia..|].
  assert (head q <> tail q) as Hne by (rewrite <- Size_0 by done; lia).
  exists (mkQueue d (maxElementsMask q) (head q)
            ((tail q - 1) mod (maxElementsMask q + 1))).
  split.
  { unfold EraseItemAtMoveBack, for_int. run. rewrite Hcount, Hrun. simpl.
    rewrite Hm, prev_index by done. unfold set_tail. simpl. rewrite Hm.
    by replace (2 ^ k - 1 + 1) with (2 ^ k) by lia. }
  pose proof (retreat_tail_wf q d Hwf Hlen) as Hwf'.
  pose proof (retreat_tail_Size q d Hwf Hne) as HS'.
  split; [done|]. split; [done|].
  pose proof (elements_length q l Hwf Hl) as Hlen'.
  apply elements_lookup; [done|]. rewrite HS'. split.
  { rewrite length_delete by (apply lookup_lt_is_Some_2; lia). lia. }
  intros i Hi. simpl.
  change (phys (mkQueue d _ _ _)) with (phys q).
  rewrite Hd by lia. rewrite list_lookup_delete.
  repeat case_decide; try lia.
  - rewrite (lookup_elements q l) by (done || lia). f_equal. lia.
  - rewrite (lookup_elements q l) by (done || lia). f_equal. lia.
Qed.

Lemma EraseItemAt_spec q l index :
  wf q -> elements q = Some l -> 0 <= index < Size q ->
  exists q',
    EraseItemAt index q = Some (tt, q') /\ wf q' /\
    Size q' = Size q - 1 /\
    elements q' = Some (delete (Z.to_nat index) l).
Proof.
  intros Hwf Hl Hidx. unfold EraseItemAt. run.
  destruct (_ <=? _).
  - by apply EraseItemAtMoveFront_spec.
  - by apply EraseItemAtMoveBack_spec.
Qed.
End QueueErase.

(** ** The constructor, [Resize] and [InsertWithResize] *)
Lemma RoundUpToNextPow2_pos y :
  0 < RoundUpToNextPow2 y ->
  exists j, 0 <= j <= 31 /\ RoundUpToNextPow2 y = 2 ^ j /\ y <= 2 ^ j.
Proof.
  unfold RoundUpToNextPow2. intros Hpos.
  pose proof (Z.log2_up_nonneg y) as Hnn.
  destruct (Z_lt_le_dec (Z.log2_up y) 32) as [Hlt|Hge].
  - exists (Z.log2_up y). split; [lia|].
    pose proof (Z.pow_lt_mono_r 2 (Z.log2_up y) 32).
    pose proof (pow2_pos (Z.log2_up y)).
    rewrite Z.mod_small by lia. split; [done|].
    destruct (Z_lt_le_dec 1 y) as [Hy|Hy].
    + apply Z.log2_up_spec in Hy. lia.
    + lia.
  - replace (Z.log2_up y) with (Z.log2_up y - 32 + 32) in Hpos by lia.
    rewrite Z.pow_add_r, Z.mod_mul in Hpos by lia. lia.
Qed.


Lemma RoundUpToNextPow2_valid n :
  valid_size n ->
  exists j, 0 <= j <= 31 /\ RoundUpToNextPow2 (u32 n) = 2 ^ j /\ u32 n <= 2 ^ j.
Proof.
  intros [Hpos Hle]. apply RoundUpToNextPow2_pos. unfold RoundUpToNextPow2.
  pose proof (Z.log2_up_nonneg (u32 n)) as Hnn.
  assert (Z.log2_up (u32 n) <= 31) as Hj.
  { rewrite <- (Z.log2_up_pow2 31) by lia. by apply Z.log2_up_le_mono. }
  pose proof (pow2_pos (Z.log2_up (u32 n)) Hnn).
  pose proof (Z.pow_lt_mono_r 2 (Z.log2_up (u32 n)) 32).
  rewrite Z.mod_small; lia.
Qed.

Section QueueResize.
Context `{DataModel} {T : Type}.
Variable uninit : T.
Implicit Types q : WaitFreeQueue (T:=T).
Implicit Types d : list T.

Lemma is_full_Size q : wf q -> is_full q <-> Size q = maxElementsMask q.
Proof.
  intros Hwf. unfold is_full. rewrite Size_cases by done.
  destruct (wf_inv q Hwf) as (k & Hk & Hm & Hd & Hh & Ht & HC).
  rewrite mod_add_once by lia.
  destruct (Z.ltb_spec (tail q + 1) (maxElementsMask q + 1)),
    (Z.leb_spec (head q) (tail q)); lia.
Qed.

Lemma new_wf n :
  valid_size n ->
  wf (WaitFreeQueue_new uninit n) /\
  maxElementsMask (WaitFreeQueue_new uninit n) = RoundUpToNextPow2 (u32 n) - 1 /\
  elements (WaitFreeQueue_new uninit n) = Some [].
Proof.
  intros (j & Hj & HR & _)%RoundUpToNextPow2_valid.
  pose proof (pow2_pos j). pose proof (pow2_mono j 31).
  assert (wf (WaitFreeQueue_new uninit n)) as Hwf.
  { unfold WaitFreeQueue_new, new_array. rewrite HR.
    rewrite (size_t_small (2 ^ j)) by lia.
    rewrite (size_t_small (2 ^ j - 1)), ulong_small by lia.
    split; simpl; rewrite ?length_replicate; eauto with lia. }
  split; [done|]. split; [|by apply elements_nil].
  unfold WaitFreeQueue_new. simpl. rewrite HR.
  rewrite (size_t_small (2 ^ j)) by lia.
  rewrite (size_t_small (2 ^ j - 1)), ulong_small by lia. done.
Qed.

(** The copy loop of [Resize], from element [i] on. *)
Lemma Resize_copy_run q n : forall (i : nat) d,
  wf q -> Z.of_nat (i + n) <= Size q -> (i + n <= length d)%nat ->
  exists d',
    Resize_copy n (Z.of_nat i) d (Z.of_nat i) q = Some ((d', Z.of_nat (i + n)), q) /\
    length d' = length d /\
    forall j : nat,
      d' !! j = if decide (i <= j < i + n)%nat
                then data q !! phys q (Z.of_nat j) else d !! j.
Proof.
  induction n as [|n IH]; intros i d Hwf Hi Hlen.
  - exists d. simpl. rewrite Nat.add_0_r. split; [done|]. split; [done|].
    intros j. case_decide; [lia|done].
  - pose proof (Size_range q Hwf) as HS.
    destruct (wf_inv q Hwf) as (k & Hk & Hm & Hd & Hh & Ht & HC).
    simpl. run. rewrite to_int_small, ItemAt_eq by (done || lia). run.
    rewrite array_load_phys.
    destruct (lookup_lt_is_Some_2 (data q) (phys q (Z.of_nat i))) as [x Hx];
      [by apply phys_lt|].
    rewrite Hx. rewrite array_store_Some by lia.
    unfold uadd. rewrite ulong_small by lia.
    replace (Z.of_nat i + 1) with (Z.of_nat (S i)) by lia.
    destruct (IH (S i) (<[Z.to_nat (Z.of_nat i) := x]> d) Hwf)
      as (d' & Hrun & Hlen' & Hd'); [rewrite ?length_insert; lia..|].
    exists d'. rewrite Hrun. split; [do 3 f_equal; lia|].
    split; [by rewrite Hlen', length_insert|].
    intros j. rewrite Hd', Nat2Z.id.
    repeat case_decide; try lia; try done.
    + assert (j = i) as -> by lia. by rewrite list_lookup_insert_eq by lia.
    + rewrite list_lookup_insert_ne by lia. done.
Qed.


(** Whatever [Resize] copies, it leaves the rounded size less one in
    [maxElementsMask]. *)
Lemma Resize_mask q n q' :
  valid_size n -> Resize uninit n q = Some (tt, q') ->
  maxElementsMask q' + 1 = RoundUpToNextPow2 (u32 n).
Proof.
  intros (j & Hj & HR & _)%RoundUpToNextPow2_valid.
  pose proof (pow2_pos j). pose proof (pow2_mono j 31).
  unfold Resize. run.
  destruct (Resize_copy _ _ _ _ _) as [[r q1]|]; [|done].
  intros [= <-]. simpl. rewrite HR.
  rewrite (size_t_small (2 ^ j)) by lia.
  rewrite (size_t_small (2 ^ j - 1)), ulong_small by lia. lia.
Qed.


End QueueResize.

(** ** [TakeFront], [Clear] and a run of [Insert]s *)
Section QueueReach.
Context `{DataModel} {T : Type}.
Variable uninit : T.
Implicit Types q : WaitFreeQueue (T:=T).
Implicit Types d : list T.

Lemma elements_cons q :
  wf q -> head q <> tail q ->
  exists x l, elements q = Some (x :: l) /\ data q !! Z.to_nat (head q) = Some x.
Proof.
  intros Hwf Hne. destruct (elements_is_Some q Hwf) as [l Hl].
  pose proof (elements_length q l Hwf Hl) as Hlen.
  pose proof (Size_range q Hwf) as HS.
  assert (Size q <> 0) by by rewrite Size_0.
  destruct l as [|x l]; [simpl in Hlen; lia|].
  exists x, l. split; [done|].
  rewrite <- phys_0 by done. rewrite (lookup_elements q (x :: l)) by (done || lia).
  done.
Qed.

Lemma deref_Front q x l :
  wf q -> elements q = Some (x :: l) -> deref (Front q) q = Some (x, q).
Proof.
  intros Hwf Hl. pose proof (elements_length q _ Hwf Hl) as Hlen. simpl in Hlen.
  assert (head q <> tail q) as Hne by (rewrite <- Size_0 by done; lia).
  destruct (elements_cons q Hwf Hne) as (x' & l' & Hl' & Hx).
  rewrite Hl in Hl'. injection Hl' as <- <-.
  rewrite Front_eq, decide_False by done. run.
  destruct (wf_inv q Hwf) as (k & Hk & Hm & Hd & Hh & Ht & HC).
  unfold array_load. destruct (Z.leb_spec 0 (head q)); [|lia]. by rewrite Hx.
Qed.

Lemma PopFront_spec q x l :
  wf q -> elements q = Some (x :: l) ->
  exists q',
    PopFront q = Some (tt, q') /\ wf q' /\ elements q' = Some l /\
    Size q' = Size q - 1 /\
    q' = set_head ((head q + 1) mod (maxElementsMask q + 1)) q.
Proof.
  intros Hwf Hl. pose proof (elements_length q _ Hwf Hl) as Hlen. simpl in Hlen.
  assert (head q <> tail q) as Hne by (rewrite <- Size_0 by done; lia).
  eexists. split; [by rewrite PopFront_run, decide_False by done|].
  split; [by apply (advance_head_wf q (data q))|].
  split; [by rewrite (elements_advance_head q (x :: l))|].
  split; [by apply (advance_head_Size q (data q))|done].
Qed.

Lemma TakeFront_spec q x l :
  wf q -> elements q = Some (x :: l) ->
  exists q',
    TakeFront q = Some (x, q') /\ wf q' /\ elements q' = Some l /\
    Size q' = Size q - 1.
Proof.
  intros Hwf Hl.
  destruct (PopFront_spec q x l Hwf Hl) as (q' & Hpop & Hwf' & Hl' & HS & _).
  exists q'. split; [|done].
  pose proof (deref_Front q x l Hwf Hl) as Hd.
  unfold TakeFront. unfold mbind, M_bind, bind, gets, mret, M_ret, ret.
  rewrite Hd, Hpop. done.
Qed.

Lemma TakeFront_empty q : head q = tail q -> TakeFront q = None.
Proof.
  intros Heq. unfold TakeFront. run. by rewrite Front_eq, decide_True.
Qed.

Lemma Clear_spec q :
  wf q ->
  Clear q = Some (tt, set_tail (head q) q) /\ wf (set_tail (head q) q) /\
  elements (set_tail (head q) q) = Some [].
Proof.
  intros Hwf. split; [done|].
  assert (wf (set_tail (head q) q)) by (destruct Hwf; by split).
  split; [done|]. by apply elements_nil.
Qed.

Lemma Capacity_wf q : wf q -> Capacity q = maxElementsMask q.
Proof.
  intros (k & Hk & Hm & Hd & Hh & Ht & HC)%wf_inv.
  unfold Capacity. apply to_int_small. lia.
Qed.


Lemma insert_all_spec vs : forall q l,
  wf q -> elements q = Some l ->
  Size q + Z.of_nat (length vs) <= maxElementsMask q ->
  exists q',
    insert_all vs q = Some q' /\ wf q' /\
    maxElementsMask q' = maxElementsMask q /\
    Size q' = Size q + Z.of_nat (length vs) /\
    elements q' = Some (l ++ vs).
Proof.
  induction vs as [|v vs IH]; intros q l Hwf Hl Hroom.
  - exists q. simpl. rewrite app_nil_r.
    split; [done|]. split; [done|].
    split; [done|]. split; [lia|done].
  - simpl in *. pose proof (Insert_run q v Hwf) as Hins.
    destruct (Z.eqb_spec ((tail q + 1) mod (maxElementsMask q + 1)) (head q))
      as [Hf|Hnf].
    { apply is_full_Size in Hf; [|done]. lia. }
    destruct (Insert_true q v _ Hwf Hins) as [HS Hel].
    pose proof (Insert_wf q v _ _ Hwf Hins) as Hwf1.
    rewrite Hins.
    edestruct (IH _ (l ++ [v]) Hwf1) as (q' & Hq' & Hwf' & Hm & HS' & Hl');
      [by apply Hel|simpl; lia|].
    exists q'. split; [done|]. split; [done|].
    split; [by rewrite Hm|]. split; [lia|].
    by rewrite Hl', <- app_assoc.
Qed.
End QueueReach.

(** ** The invariant of the interleavings *)
Section InterleavingFacts.
Context `{DataModel} {T : Type}.
Implicit Types q : WaitFreeQueue (T:=T).
Implicit Types d : list T.
Implicit Types s : state (T:=T).

Lemma next_index_wf q x :
  wf q ->
  Z.land (uadd x 1) (maxElementsMask q) = (x + 1) mod (maxElementsMask q + 1).
Proof.
  intros (k & Hk & Hm & Hd & Hh & Ht & HC)%wf_inv.
  rewrite Hm, next_index by done. f_equal. lia.
Qed.

Lemma succ_mod_inj C a b :
  0 <= a < C -> 0 <= b < C -> (a + 1) mod C = (b + 1) mod C -> a = b.
Proof.
  intros Ha Hb. rewrite !mod_add_once by lia.
  destruct (Z.ltb_spec (a + 1) C), (Z.ltb_spec (b + 1) C); lia.
Qed.

(** The producer writes the slot at [tail], which holds no element. *)
Lemma write_tail_slot q v d :
  wf q -> array_store (data q) (tail q) v = Some d ->
  wf (set_data d q) /\ elements (set_data d q) = elements q /\
  d !! Z.to_nat (tail q) = Some v /\
  (head q <> tail q -> d !! Z.to_nat (head q) = data q !! Z.to_nat (head q)).
Proof.
  intros Hwf Hst.
  destruct (wf_inv q Hwf) as (k & Hk & Hm & Hd & Hh & Ht & HC).
  rewrite array_store_Some in Hst by lia. injection Hst as <-.
  assert (wf (set_data (<[Z.to_nat (tail q) := v]> (data q)) q)) as Hwf'.
  { apply set_data_wf; [done|]. by rewrite length_insert. }
  split; [done|].
  assert (Z.to_nat (tail q) = phys q (Size q)) as Htail.
  { unfold phys. f_equal. rewrite Size_eq, Zplus_mod_idemp_r by done.
    replace (head q + (tail q - head q)) with (tail q) by lia.
    rewrite Z.mod_small; lia. }
  pose proof (Size_range q Hwf) as HS.
  split; [|split].
  - apply elements_eq; try done. intros i Hi. simpl.
    change (phys (set_data _ q)) with (phys q).
    rewrite list_lookup_insert_ne; [done|].
    rewrite Htail. intros ?%phys_inj; done || lia.
  - apply list_lookup_insert_eq. lia.
  - intros Hne. apply list_lookup_insert_ne. lia.
Qed.

(** The producer publishes the slot it wrote. *)
Lemma publish_tail q v l :
  wf q -> ~ is_full q -> data q !! Z.to_nat (tail q) = Some v ->
  elements q = Some l ->
  let q' := set_tail ((tail q + 1) mod (maxElementsMask q + 1)) q in
  wf q' /\ elements q' = Some (l ++ [v]) /\ head q' <> tail q'.
Proof.
  intros Hwf Hnf Hv Hl q'. pose proof (Insert_run q v Hwf) as Hins.
  destruct (Z.eqb_spec ((tail q + 1) mod (maxElementsMask q + 1)) (head q));
    [done|].
  rewrite list_insert_id in Hins by done.
  change (mkQueue _ _ _ _) with q' in Hins.
  split; [by eapply Insert_wf|].
  split; [by eapply Insert_true|]. simpl. congruence.
Qed.

Lemma advance_head_not_full q :
  wf q -> head q <> tail q ->
  ~ is_full (set_head ((head q + 1) mod (maxElementsMask q + 1)) q).
Proof.
  intros Hwf Hne. unfold is_full. simpl.
  destruct (wf_inv q Hwf) as (k & Hk & Hm & Hd & Hh & Ht & HC).
  intros ?%succ_mod_inj; lia.
Qed.

Lemma producer_ok_advance_head q pc :
  wf q -> head q <> tail q -> producer_ok q pc ->
  producer_ok (set_head ((head q + 1) mod (maxElementsMask q + 1)) q) pc.
Proof.
  intros Hwf Hne. destruct pc; simpl; try done.
  - intros (? & ? & ?). eauto using advance_head_not_full.
  - intros (? & ? & ?). eauto using advance_head_not_full.
Qed.

Lemma consumer_ok_set_data q d pc :
  length d = length (data q) ->
  (head q <> tail q -> d !! Z.to_nat (head q) = data q !! Z.to_nat (head q)) ->
  consumer_ok q pc -> consumer_ok (set_data d q) pc.
Proof.
  intros Hlen Hd.
  destruct pc; simpl; unfold front_is; simpl; try done;
    intuition (try congruence); by rewrite Hd.
Qed.

Lemma consumer_ok_publish q pc :
  wf q -> ~ is_full q -> consumer_ok q pc ->
  consumer_ok (set_tail ((tail q + 1) mod (maxElementsMask q + 1)) q) pc.
Proof.
  intros Hwf Hnf. unfold is_full in Hnf.
  destruct pc; simpl; unfold front_is; simpl; try done;
    intuition congruence.
Qed.

Local Ltac unchanged l :=
  split; [done|]; split; [simpl; done|]; split; [simpl; done|];
  exists l; split; done.

Lemma step_invariant l0 t s s' :
  invariant l0 s -> step t s s' -> invariant l0 s'.
Proof.
  intros (Hwf & Hp & Hc & l & Hl & Hhist) Hstep.
  destruct Hstep; simpl in *.
  - (* tail read *) by unchanged l.
  - (* full *) by unchanged l.
  - (* room *)
    subst tail_. rewrite next_index_wf in * by done.
    by unchanged l.
  - (* slot written *)
    destruct Hp as (-> & -> & Hnf).
    match goal with Hst : array_store _ _ _ = Some _ |- _ =>
      destruct (write_tail_slot q value d Hwf Hst) as (Hwf' & Hel & Hv & Hhd);
      pose proof Hst as Hst' end.
    destruct (wf_inv q Hwf) as (k & Hk & Hm & Hdl & Hh & Ht & HC).
    rewrite array_store_Some in Hst' by lia. injection Hst' as <-.
    split; [done|]. split; [done|].
    split; [apply consumer_ok_set_data; [by rewrite length_insert|done..]|].
    exists l. simpl. by rewrite Hel.
  - (* tail published *)
    destruct Hp as (-> & Hnf & Hv).
    destruct (publish_tail q value l Hwf Hnf Hv Hl) as (Hwf' & Hel & Hne).
    split; [done|]. split; [done|].
    split; [by apply consumer_ok_publish|].
    exists (l ++ [value]). split; [done|]. simpl. by rewrite !app_assoc, Hhist.
  - (* Front reads head *) by unchanged l.
  - (* Front: empty *) by unchanged l.
  - (* Front: not empty *)
    subst h. by unchanged l.
  - (* Front reads tail *) by unchanged l.
  - (* Front: empty *) by unchanged l.
  - (* Front: not empty *)
    split; [done|]. split; [done|]. split; [simpl; by apply Hc|].
    by exists l.
  - (* Front returns *) by unchanged l.
  - (* element read *)
    destruct Hc as [-> Hne].
    destruct (wf_inv q Hwf) as (k & Hk & Hm & Hdl & Hh & Ht & HC).
    match goal with Hld : array_load _ _ = Some _ |- _ =>
      unfold array_load in Hld;
      destruct (Z.leb_spec 0 (head q)); [|lia] end.
    by unchanged l.
  - (* PopFront reads head *) by unchanged l.
  - (* PopFront: empty *) by unchanged l.
  - (* PopFront: not empty *)
    destruct Hc as [-> ?]. by unchanged l.
  - (* PopFront reads tail *) by unchanged l.
  - (* PopFront: empty *) by unchanged l.
  - (* PopFront: not empty *) by unchanged l.
  - (* next head computed *)
    rewrite next_index_wf by done.
    destruct (wf_inv q Hwf) as (k & Hk & Hm & Hdl & Hh & Ht & HC).
    pose proof (Z.mod_pos_bound (head q + 1) (maxElementsMask q + 1)).
    rewrite size_t_small by lia. by unchanged l.
  - (* head stored *)
    destruct Hc as (-> & Hne & Hx).
    destruct (wf_inv q Hwf) as (k & Hk & Hm & Hdl & Hh & Ht & HC).
    pose proof (Z.mod_pos_bound (head q + 1) (maxElementsMask q + 1)).
    rewrite ulong_small by lia.
    destruct (elements_cons q Hwf Hne) as (x' & l' & Hl' & Hx').
    assert (x' = x) as -> by congruence.
    assert (l = x :: l') as -> by congruence.
    split; [by apply (advance_head_wf q (data q))|].
    split; [by apply producer_ok_advance_head|]. split; [done|].
    exists l'. split; [by rewrite (elements_advance_head q (x :: l'))|].
    simpl. rewrite Hhist, <- app_assoc. done.
Qed.

Lemma interleaving_invariant l0 s s' :
  invariant l0 s -> interleaving s s' -> invariant l0 s'.
Proof.
  intros Hinv Hrun. induction Hrun as [|s s' s'' [t Hstep] _ IH]; [done|].
  eauto using step_invariant.
Qed.

Lemma thread_run_interleaving t s s' :
  rtc (step t) s s' -> interleaving s s'.
Proof. apply rtc_subrel. intros x y Hxy. by exists t. Qed.

Lemma initial_invariant q l0 :
  wf q -> elements q = Some l0 -> invariant l0 (initial q).
Proof.
  intros Hwf Hl. split; [done|]. split; [done|]. split; [done|].
  exists l0. split; [done|]. simpl. by rewrite app_nil_r.
Qed.

(** Neither thread is ever about to read or write outside the array. *)
Lemma step_enabled l0 s t (v : T) :
  invariant l0 s -> exists s', step t s s'.
Proof.
  intros (Hwf & Hp & Hc & _). destruct s as [q p c ins pops]. simpl in *.
  destruct (wf_inv q Hwf) as (k & Hk & Hm & Hdl & Hh & Ht & HC).
  destruct t.
  - destruct p as [|v' t'|v' t' nt|v' nt]; simpl in Hp.
    + eexists. apply (p_read_tail _ _ _ _ v).
    + destruct (decide (Z.land (uadd t' 1) (maxElementsMask q) = head q)).
      * eexists. by apply p_full.
      * eexists. by apply p_room.
    + destruct Hp as (-> & _). eexists. apply p_write.
      apply array_store_Some. lia.
    + eexists. apply p_publish.
  - destruct c as [|h|t'| |i|x|x h|x t'|x|x h]; simpl in Hc.
    + eexists. apply c_front_head.
    + destruct (decide (h = tail q)).
      * eexists. by apply c_front_empty.
      * eexists. by apply c_front_nonempty.
    + destruct (decide (head q = t')).
      * eexists. by apply c_front_tail_empty.
      * eexists. by apply c_front_tail_nonempty.
    + eexists. apply c_front_return.
    + destruct Hc as [-> Hne].
      destruct (lookup_lt_is_Some_2 (data q) (Z.to_nat (head q))) as [x Hx];
        [lia|].
      exists (mkState q p (CPop x) ins pops). apply c_deref.
      unfold array_load. by destruct (Z.leb_spec 0 (head q)); [|lia].
    + eexists. apply c_pop_head.
    + destruct (decide (h = tail q)).
      * eexists. by apply c_pop_empty.
      * eexists. by apply c_pop_nonempty.
    + destruct (decide (head q = t')).
      * eexists. by apply c_pop_tail_empty.
      * eexists. by apply c_pop_tail_nonempty.
    + eexists. apply c_pop_next.
    + eexists. apply c_pop_store.
Qed.
End InterleavingFacts.

(** ** The threads, one at a time *)
Section Sequential.
Context `{DataModel} {T : Type}.
Implicit Types q : WaitFreeQueue (T:=T).

(** The steps of the producer, run without interruption, are [Insert]. *)
Lemma producer_steps_Insert q c ins pops v :
  wf q ->
  exists b q',
    Insert v q = Some (b, q') /\
    rtc (step Producer) (mkState q PIdle c ins pops)
      (mkState q' PIdle c (if b then ins ++ [v] else ins) pops).
Proof.
  intros Hwf. pose proof (Insert_run q v Hwf) as Hins.
  destruct (wf_inv q Hwf) as (k & Hk & Hm & Hd & Hh & Ht & HC).
  pose proof (next_index_wf q (tail q) Hwf) as Hnext.
  destruct (Z.eqb_spec ((tail q + 1) mod (maxElementsMask q + 1)) (head q))
    as [Hf|Hnf].
  - exists false, q. split; [done|].
    eapply rtc_l; [apply (p_read_tail _ _ _ _ v)|].
    eapply rtc_l; [apply p_full; congruence|]. done.
  - eexists true, _. split; [done|].
    eapply rtc_l; [apply (p_read_tail _ _ _ _ v)|].
    eapply rtc_l; [apply p_room; congruence|].
    eapply rtc_l; [apply p_write; apply array_store_Some; lia|].
    eapply rtc_l; [apply p_publish|].
    rewrite Hnext. done.
Qed.

(** The steps of the consumer, run without interruption on a queue that is
    not empty, are [TakeFront]. *)
Lemma consumer_steps_TakeFront q p ins pops x l :
  wf q -> elements q = Some (x :: l) ->
  exists q',
    TakeFront q = Some (x, q') /\
    rtc (step Consumer) (mkState q p CIdle ins pops)
      (mkState q' p CIdle ins (pops ++ [x])).
Proof.
  intros Hwf Hl.
  destruct (PopFront_spec q x l Hwf Hl) as (q' & Hpop & _ & _ & _ & Hq').
  destruct (TakeFront_spec q x l Hwf Hl) as (q'' & Htake & _).
  assert (q'' = q') as ->.
  { revert Htake. unfold TakeFront, mbind, M_bind, bind, gets, mret, M_ret, ret.
    rewrite (deref_Front q x l), Hpop by done. congruence. }
  exists q'. split; [done|].
  pose proof (elements_length q _ Hwf Hl) as Hlen. simpl in Hlen.
  assert (head q <> tail q) as Hne by (rewrite <- Size_0 by done; lia).
  destruct (elements_cons q Hwf Hne) as (x' & l' & Hl' & Hx).
  assert (x' = x) as -> by congruence.
  destruct (wf_inv q Hwf) as (k & Hk & Hm & Hd & Hh & Ht & HC).
  pose proof (Z.mod_pos_bound (head q + 1) (maxElementsMask q + 1)).
  eapply rtc_l; [apply c_front_head|].
  eapply rtc_l; [by apply c_front_nonempty|].
  eapply rtc_l; [apply c_front_return|].
  eapply rtc_l.
  { apply (c_deref _ _ _ _ _ x). unfold array_load.
    by destruct (Z.leb_spec 0 (head q)); [|lia]. }
  eapply rtc_l; [apply c_pop_head|].
  eapply rtc_l; [by apply c_pop_nonempty|].
  eapply rtc_l; [apply c_pop_next|].
  eapply rtc_l; [apply c_pop_store|].
  rewrite next_index_wf, size_t_small, ulong_small by (done || lia).
  rewrite Hq'. done.
Qed.
End Sequential.

(** * Properties of the queue *)

Section QueueProperties.
Context `{DataModel} {T : Type}.
Variable uninit : T.
Implicit Types q : WaitFreeQueue (T:=T).

(** C2.  For every state of a queue, [Insert(value)] returns false exactly
    when the queue is full, that is when [(tail+1) mod C = head], and then
    [head], [tail] and the stored elements are unchanged; otherwise it
    writes [value] into the slot at [tail], advances [tail] by one modulo
    [C] and returns true. *)
Theorem Insert_false_iff_full q value :
  wf q ->
  let C := maxElementsMask q + 1 in
  ((exists q', Insert value q = Some (false, q')) <->
     (tail q + 1) mod C = head q) /\
  ((tail q + 1) mod C = head q -> Insert value q = Some (false, q)) /\
  ((tail q + 1) mod C <> head q ->
     Insert value q =
       Some (true, {| data := <[Z.to_nat (tail q) := value]> (data q);
                      maxElementsMask := maxElementsMask q;
                      head := head q;
                      tail := (tail q + 1) mod C |})).
Proof.
  intros Hwf C. rewrite (Insert_run q value Hwf). fold C.
  destruct (Z.eqb_spec ((tail q + 1) mod C) (head q)) as [Hf|Hnf].
  - split; [|done]. split; [done|eauto].
  - split; [|done]. split; [|done]. by intros [q' [=]].
Qed.

(** C4.  [Front()] returns a null pointer exactly when the queue is empty
    ([head = tail]) and otherwise a pointer to the slot at index [head];
    [PopFront()] on a queue that is not empty advances [head] by one modulo
    [C]: the element [Front()] pointed to is gone, the others stay in their
    order. *)
Theorem Front_null_iff_empty_PopFront_advances q :
  wf q ->
  (Front q = null <-> head q = tail q) /\
  (head q <> tail q -> Front q = slot (head q)) /\
  (head q <> tail q ->
     let q' := set_head ((head q + 1) mod (maxElementsMask q + 1)) q in
     exists x l,
       elements q = Some (x :: l) /\
       deref (Front q) q = Some (x, q) /\
       PopFront q = Some (tt, q') /\
       elements q' = Some l).
Proof.
  intros Hwf. rewrite Front_eq. split; [|split].
  - case_decide; naive_solver.
  - intros Hne. by rewrite decide_False.
  - intros Hne q'. destruct (elements_cons q Hwf Hne) as (x & l & Hl & _).
    exists x, l. split; [done|]. rewrite <- Front_eq.
    split; [by eapply deref_Front|].
    destruct (PopFront_spec q x l Hwf Hl) as (q'' & Hpop & _ & Hl' & _ & ->).
    done.
Qed.

(** C6.  On a queue with an element at position [index], [EraseItemAt],
    and each of [EraseItemAtMoveFront] and [EraseItemAtMoveBack] it
    dispatches to, removes exactly that element: [Size()] goes down by one
    and the other elements keep their order, wherever [head] and [tail]
    are, also when the elements wrap around the end of the array. *)
Theorem EraseItemAt_removes_the_element q l index :
  wf q -> elements q = Some l -> 0 <= index < Size q ->
  let l' := take (Z.to_nat index) l ++ drop (S (Z.to_nat index)) l in
  (exists q', EraseItemAt index q = Some (tt, q') /\
     Size q' = Size q - 1 /\ elements q' = Some l') /\
  (exists q', EraseItemAtMoveFront index q = Some (tt, q') /\
     Size q' = Size q - 1 /\ elements q' = Some l') /\
  (exists q', EraseItemAtMoveBack index q = Some (tt, q') /\
     Size q' = Size q - 1 /\ elements q' = Some l').
Proof.
  intros Hwf Hl Hidx l'. subst l'. rewrite <- delete_take_drop.
  destruct (EraseItemAt_spec q l index Hwf Hl Hidx) as (q1 & ? & _ & ? & ?).
  destruct (EraseItemAtMoveFront_spec q l index Hwf Hl Hidx) as (q2 & ? & _ & ? & ?).
  destruct (EraseItemAtMoveBack_spec q l index Hwf Hl Hidx) as (q3 & ? & _ & ? & ?).
  split; [by exists q1|]. split; [by exists q2|by exists q3].
Qed.

(** C9.  On an empty queue ([head = tail]) [PopFront] changes nothing,
    whereas [TakeFront] dereferences the null pointer [Front] returns;
    [TakeFront] is defined exactly when [Size() > 0], and then returns the
    front element and removes it. *)
Theorem PopFront_noop_TakeFront_needs_element q :
  wf q ->
  (head q = tail q ->
     PopFront q = Some (tt, q) /\ Front q = null /\
     deref (Front q) q = None /\ TakeFront q = None) /\
  (is_Some (TakeFront q) <-> 0 < Size q) /\
  (0 < Size q ->
     exists x l q',
       elements q = Some (x :: l) /\ TakeFront q = Some (x, q') /\
       elements q' = Some l /\ Size q' = Size q - 1).
Proof.
  intros Hwf. pose proof (Size_range q Hwf) as HS.
  pose proof (Size_0 q Hwf) as H0.
  assert (0 < Size q ->
     exists x l q',
       elements q = Some (x :: l) /\ TakeFront q = Some (x, q') /\
       elements q' = Some l /\ Size q' = Size q - 1) as Htake.
  { intros Hpos. assert (head q <> tail q) as Hne by (rewrite <- H0; lia).
    destruct (elements_cons q Hwf Hne) as (x & l & Hl & _).
    destruct (TakeFront_spec q x l Hwf Hl) as (q' & ? & _ & ? & ?).
    by exists x, l, q'. }
  split; [|split; [|done]].
  - intros Heq. rewrite PopFront_run, Front_eq, !decide_True by done.
    split; [done|]. split; [done|]. split; [done|]. by apply TakeFront_empty.
  - split.
    + intros [r Hr]. destruct (decide (head q = tail q)) as [Heq|Hne].
      * by rewrite TakeFront_empty in Hr.
      * apply Z.le_neq. split; [lia|]. intros Hz. apply Hne, H0. done.
    + intros Hpos. destruct (Htake Hpos) as (x & l & q' & _ & -> & _). done.
Qed.

End QueueProperties.

(** * Properties of the harness *)

Section HarnessProperties.
Import InOrderTest.
Local Open Scope string_scope.
Local Open Scope Z_scope.
Local Open Scope list_scope.

Variable StringToSocketTransportLayer : string -> SocketTransportLayer.
Variable atoi : string -> Z.
Variable StartServer : Z -> SocketTransportLayer -> option (list (Z * Z)).
Variable Connect : string -> Z -> SocketTransportLayer -> option Connection.

Lemma RunClient_None address port transport last :
  RunClient Connect address port transport last = None ->
  exists c, Connect address port transport = Some c /\
            wait_while_pending (polls c) (settled c) = None.
Proof.
  unfold RunClient. destruct (Connect address port transport) as [c|]; [|done].
  destruct (wait_while_pending _ _) as [rest|] eqn:Hw; [|by eauto].
  destruct (hd _ _); try done. by destruct (send_loop _ _ _ _).
Qed.

(** C7, as amended.  With at least four arguments, a valid transport as
    second argument and a first argument that is neither [server] nor
    [client], the harness prints the line
    [The second parameter is either 'server' or 'client'!], not the usage
    text, and exits with status 0. *)
Theorem unknown_subcommand_prints_hint_and_exits_0 argv :
  4 <= Z.of_nat (length argv) ->
  StringToSocketTransportLayer (nth 2 argv "") <> InvalidTransportLayer ->
  _stricmp (nth 1 argv "") "server" <> 0 ->
  _stricmp (nth 1 argv "") "client" <> 0 ->
  main StringToSocketTransportLayer atoi StartServer Connect argv =
    Some ([Str "The second parameter is either 'server' or 'client'!"; Endl], 0).
Proof.
  intros Hargc Htr Hs Hc. unfold main.
  destruct (Z.ltb_spec (Z.of_nat (length argv)) 4); [lia|].
  destruct (Z.eqb_spec (_stricmp (nth 1 argv "") "server") 0); [done|].
  destruct (Z.eqb_spec (_stricmp (nth 1 argv "") "client") 0); [done|].
  by destruct (StringToSocketTransportLayer (nth 2 argv "")).
Qed.

(** C8, as amended.  Whenever the harness returns, its exit status is 0:
    after a normal run, after a usage error, and after a network failure
    alike.  It returns unless a connection stays pending for ever. *)
Theorem exit_status_is_always_0 argv :
  let result := main StringToSocketTransportLayer atoi StartServer Connect argv in
  (forall out status, result = Some (out, status) -> status = 0) /\
  (usage_error StringToSocketTransportLayer argv ->
     exists out, result = Some (out, 0)) /\
  ((forall port transport, StartServer port transport = None) ->
   (forall address port transport, Connect address port transport = None) ->
     exists out, result = Some (out, 0)) /\
  (result = None ->
     exists address port transport c,
       Connect address port transport = Some c /\
       wait_while_pending (polls c) (settled c) = None).
Proof.
  intros result. subst result. unfold main, usage_error.
  destruct (Z.ltb_spec (Z.of_nat (length argv)) 4) as [Hlt|Hge].
  { split; [by intros ?? [= _ <-]|]. split; [eauto|]. split; [eauto|done]. }
  set (port3 := ushort (atoi (nth 3 argv ""))).
  set (port4 := ushort (atoi (nth 4 argv ""))).
  destruct (StringToSocketTransportLayer (nth 2 argv "")) eqn:Htr.
  { split; [by intros ?? [= _ <-]|]. split; [eauto|]. split; [eauto|done]. }
  all: destruct (Z.eqb_spec (_stricmp (nth 1 argv "") "server") 0) as [Hs|Hs].
  all: try (destruct (RunServer StartServer port3 _ 0) as [out last] eqn:Hrun;
            split; [by intros ?? [= _ <-]|]; split; [|split; [eauto|done]];
            intros [?|[?|[? _]]]; done || lia).
  all: destruct (Z.eqb_spec (_stricmp (nth 1 argv "") "client") 0) as [Hc|Hc].
  all: try (split; [by intros ?? [= _ <-]|]; split; [eauto|]; split; [eauto|done]).
  all: destruct (Z.ltb_spec (Z.of_nat (length argv)) 5) as [Hlt5|Hge5].
  all: try (split; [by intros ?? [= _ <-]|]; split; [eauto|]; split; [eauto|done]).
  all: destruct (RunClient Connect (nth 3 argv "") port4 _ 0)
         as [[out last]|] eqn:Hrun.
  all: try (split; [by intros ?? [= _ <-]|]; split; [eauto|]; split; [eauto|done]).
  all: apply RunClient_None in Hrun as (c & Hc' & Hw).
  all: split; [done|]; split; [intros [?|[?|[? [?|?]]]]; done || lia|].
  all: split; [intros _ Hno; by rewrite Hno in Hc'|eauto 10].
Qed.
End HarnessProperties.

(** * The properties at concrete queues and command lines *)

(** With 32 bits in an [unsigned long]. *)
Section ExamplesILP32.
#[local] Existing Instance ILP32.

Lemma Insert_false_iff_full_witness :
  wf q_full /\
  Insert 9 q_full = Some (false, q_full) /\
  Insert 9 q_empty = Some (true, mkQueue [5; 9; 3; 4] 3 1 2).
Proof.
  assert (wf q_full) as Hf by (apply wf_check_sound; reflexivity).
  assert (wf q_empty) as He by (apply wf_check_sound; reflexivity).
  split; [exact Hf|]. split.
  - apply (Insert_false_iff_full q_full 9 Hf). reflexivity.
  - apply (Insert_false_iff_full q_empty 9 He). discriminate.
Defined.

Lemma EraseItemAt_removes_the_element_witness :
  wf q_full /\ elements q_full = Some [3; 4; 5] /\
  0 <= 1 < Size q_full /\
  exists q', EraseItemAt 1 q_full = Some (tt, q') /\
    elements q' = Some [3; 5].
Proof.
  assert (wf q_full) as Hf by (apply wf_check_sound; reflexivity).
  assert (elements q_full = Some [3; 4; 5]) as Hl by reflexivity.
  assert (0 <= 1 < Size q_full) as Hi by (vm_compute; split; congruence).
  split; [exact Hf|]. split; [exact Hl|]. split; [exact Hi|].
  destruct (EraseItemAt_removes_the_element q_full _ 1 Hf Hl Hi)
    as ((q' & Hq' & _ & Hel) & _).
  exists q'. split; [exact Hq'|exact Hel].
Defined.

(** [Resize] to an array as long as the number of elements copies them all,
    yet leaves [tail] outside the array and [Size()] above [Capacity()]: the
    new array has to be longer than the number of elements. *)
Example Resize_to_the_number_of_elements :
  Resize 0 2 (mkQueue [5; 2; 3; 4] 3 2 0) = Some (tt, mkQueue [3; 4] 1 0 2) /\
  Size (mkQueue [3; 4] 1 0 2) = 2 /\ Capacity (mkQueue [3; 4] 1 0 2) = 1.
Proof. repeat split. Qed.
End ExamplesILP32.

(** With 64 bits in an [unsigned long]. *)
Section ExamplesLP64.
#[local] Existing Instance LP64.

Lemma Front_null_iff_empty_PopFront_advances_witness :
  wf q_full /\
  Front q_full = slot 2 /\
  exists x l, elements q_full = Some (x :: l) /\
    PopFront q_full = Some (tt, mkQueue [5; 2; 3; 4] 3 3 1) /\
    elements (mkQueue [5; 2; 3; 4] 3 3 1) = Some l.
Proof.
  assert (wf q_full) as Hf by (apply wf_check_sound; reflexivity).
  split; [exact Hf|].
  destruct (Front_null_iff_empty_PopFront_advances q_full Hf) as (_ & Hfront & Hpop).
  split; [apply Hfront; discriminate|].
  destruct Hpop as (x & l & Hl & _ & Hp & Hl'); [discriminate|].
  exists x, l. split; [exact Hl|]. split; [exact Hp|exact Hl'].
Defined.

Lemma PopFront_noop_TakeFront_needs_element_witness :
  wf q_empty /\
  PopFront q_empty = Some (tt, q_empty) /\
  TakeFront q_empty = None.
Proof.
  assert (wf q_empty) as He by (apply wf_check_sound; reflexivity).
  split; [exact He|].
  destruct (PopFront_noop_TakeFront_needs_element q_empty He) as (Hempty & _).
  destruct (Hempty eq_refl) as (Hpop & _ & _ & Htake).
  split; [exact Hpop|exact Htake].
Defined.


(** C3.  [Size() <= Capacity()] does not hold in every reachable state:
    [Resize] does not check that the elements fit the new array.  On a new
    queue of 4 slots that holds two elements, [Resize(2)], whose argument is
    a power of two as its assertion asks, returns with both elements in an
    array of 2 slots and [tail] outside the array: [Size()] is 2 and
    [Capacity()] is 1. *)
Theorem Resize_leaves_Size_above_Capacity :
  let q0 := WaitFreeQueue_new 0 4 in
  Capacity q0 = 3 /\ IS_POW2 2 = true /\
  exists q1 q2 q3,
    Insert 7 q0 = Some (true, q1) /\ Insert 8 q1 = Some (true, q2) /\
    Resize 0 2 q2 = Some (tt, q3) /\
    q3 = mkQueue [7; 8] 1 0 2 /\
    Size q3 = 2 /\ Capacity q3 = 1 /\ ~ Size q3 <= Capacity q3.
Proof.
  intros q0. split; [reflexivity|]. split; [reflexivity|].
  exists (mkQueue [7; 0; 0; 0] 3 0 1), (mkQueue [7; 8; 0; 0] 3 0 2),
    (mkQueue [7; 8] 1 0 2).
  split; [reflexivity|]. split; [reflexivity|]. split; [reflexivity|].
  split; [reflexivity|]. split; [reflexivity|]. split; [reflexivity|].
  intros Hle. apply Hle. reflexivity.
Qed.


(** C5.  [InsertWithResize] does not append to every full queue, and
    [DoubleCapacity] does not double every array.  On a full queue of
    [2^31] slots twice the length is [2^32], which the cast to [u32] in
    [Resize] makes 0: the new array is shorter than the number of elements,
    and the copy loop of [Resize] writes past its end. *)
Lemma InsertWithResize_cannot_double_2G_slots :
  wf q_2G /\ is_full q_2G /\ Size q_2G = 2 ^ 31 - 1 /\
  InsertWithResize 0 7 q_2G = None.
Proof.
  split.
  { split.
    - exists 31. split; [lia|reflexivity].
    - change (Z.of_nat (length (replicate (Z.to_nat (2 ^ 31)) 0)) = 2 ^ 31 - 1 + 1).
      rewrite length_replicate, Z2Nat.id by lia. reflexivity.
    - change (0 <= 0 <= 2 ^ 31 - 1). lia.
    - change (0 <= 2 ^ 31 - 1 <= 2 ^ 31 - 1). lia. }
  split; [reflexivity|]. split; reflexivity.
Qed.
End ExamplesLP64.

Section HarnessExamples.
Import InOrderTest.
#[local] Existing Instance LP64.
Local Open Scope string_scope.
Local Open Scope list_scope.

(** C7, the counterexample: [frobnicate tcp 1234] does not print the usage
    text. *)
Lemma unknown_subcommand_does_not_print_usage :
  let argv := ["InOrderTest"; "frobnicate"; "tcp"; "1234"] in
  4 <= Z.of_nat (length argv) /\
  StringToSocketTransportLayer_model (nth 2 argv "") = SocketOverTCP /\
  _stricmp (nth 1 argv "") "server" <> 0 /\
  _stricmp (nth 1 argv "") "client" <> 0 /\
  main_offline argv <> Some (PrintUsage, 0).
Proof. repeat split; discriminate. Qed.

Lemma unknown_subcommand_prints_hint_and_exits_0_witness :
  let argv := ["InOrderTest"; "frobnicate"; "tcp"; "1234"] in
  4 <= Z.of_nat (length argv) /\
  main_offline argv =
    Some ([Str "The second parameter is either 'server' or 'client'!"; Endl], 0).
Proof.
  intros argv. assert (4 <= Z.of_nat (length argv)) as Hargc by discriminate.
  split; [exact Hargc|].
  apply (unknown_subcommand_prints_hint_and_exits_0
           StringToSocketTransportLayer_model atoi_model no_server no_route
           argv Hargc); discriminate.
Defined.

(** C8, the counterexample: a client invocation with four arguments is a
    usage error, and a server that cannot be started is a network failure;
    the exit status is 0 both times, not 1 and 2. *)
Lemma usage_error_and_network_failure_exit_0 :
  main_offline ["InOrderTest"; "client"; "tcp"; "1234"] = Some (PrintUsage, 0) /\
  main_offline ["InOrderTest"; "server"; "tcp"; "1234"] =
    Some ([Str "Unable to start server in port "; Num 1234; Str "!"; Endl], 0) /\
  (forall out, main_offline ["InOrderTest"; "client"; "tcp"; "1234"] <> Some (out, 1)) /\
  (forall out, main_offline ["InOrderTest"; "server"; "tcp"; "1234"] <> Some (out, 2)).
Proof. repeat split; discriminate. Qed.

Lemma exit_status_is_always_0_witness :
  let argv := ["InOrderTest"; "client"; "tcp"; "1234"] in
  usage_error StringToSocketTransportLayer_model argv /\
  exists out, main_offline argv = Some (out, 0).
Proof.
  intros argv.
  assert (usage_error StringToSocketTransportLayer_model argv) as Hu.
  { right. right. split; [discriminate|]. right. reflexivity. }
  split; [exact Hu|].
  destruct (exit_status_is_always_0
              StringToSocketTransportLayer_model atoi_model no_server no_route argv)
    as (_ & Husage & _).
  exact (Husage Hu).
Defined.
End HarnessExamples.

(** * Further properties *)

Import QueueMore SPSCMore.

(** ** The observers, the searches and the array *)
Section MoreQueueFacts.
Context `{DataModel} {T : Type}.
Variable uninit : T.
Implicit Types q : WaitFreeQueue (T:=T).
Implicit Types d : list T.

Lemma CapacityLeft_wf q :
  wf q -> CapacityLeft q = maxElementsMask q - Size q.
Proof.
  intros Hwf. pose proof (Size_range q Hwf) as HS.
  destruct (wf_inv q Hwf) as (k & Hk & Hm & Hd & Hh & Ht & HC).
  unfold CapacityLeft. rewrite Capacity_wf by done.
  unfold usub. rewrite (ulong_small (maxElementsMask q)) by lia.
  rewrite ulong_small, to_int_small; lia.
Qed.

Lemma item_lookup q l i :
  wf q -> elements q = Some l -> 0 <= i < Size q ->
  exists x, l !! Z.to_nat i = Some x /\ item i q = Some (x, q).
Proof.
  intros Hwf Hl Hi. pose proof (elements_length q l Hwf Hl) as Hlen.
  destruct (lookup_lt_is_Some_2 l (Z.to_nat i)) as [x Hx]; [lia|].
  exists x. split; [done|].
  rewrite item_eq, (lookup_elements q l), Hx by done. done.
Qed.

Lemma item_outside q i :
  wf q -> is_Some (item i q).
Proof.
  intros Hwf. rewrite item_eq by done.
  destruct (lookup_lt_is_Some_2 (data q) (phys q i)) as [x ->];
    [by apply phys_lt|done].
Qed.
End MoreQueueFacts.

Section SearchingFacts.
Context `{DataModel} {T : Type} `{EqDecision T}.
Variable zero : T.
Implicit Types q : WaitFreeQueue (T:=T).
Implicit Types l : list T.

Lemma Contains_loop_run q l x n : forall i : nat,
  wf q -> elements q = Some l -> (i + n = length l)%nat ->
  Contains_loop n (Z.of_nat i) x q = Some (bool_decide (x ∈ drop i l), q).
Proof.
  induction n as [|n IH]; intros i Hwf Hl Hn.
  - simpl. rewrite drop_ge by lia. rewrite bool_decide_eq_false_2; [done|].
    by intros ?%elem_of_nil.
  - pose proof (elements_length q l Hwf Hl) as Hlen.
    destruct (item_lookup q l (Z.of_nat i) Hwf Hl) as (y & Hy & Hrun); [lia|].
    rewrite Nat2Z.id in Hy.
    simpl. unfold mbind, M_bind, bind. rewrite Hrun.
    rewrite (drop_S l y i Hy).
    destruct (decide (y = x)) as [->|Hne].
    + rewrite bool_decide_eq_true_2; [done|]. apply elem_of_cons. by left.
    + replace (Z.of_nat i + 1) with (Z.of_nat (S i)) by lia.
      rewrite IH by (done || lia). do 2 f_equal.
      apply bool_decide_ext. rewrite elem_of_cons.
      split; [by right|]. by intros [->|?].
Qed.

(** The inner loop: [a], the element at [i], against the elements from [j]
    on. *)
Lemma Unique_inner_run q l a n : forall (i j : nat),
  wf q -> elements q = Some l -> l !! i = Some a ->
  (j + n = length l)%nat ->
  exists b, Unique_inner zero n (Z.of_nat i) (Z.of_nat j) q = Some (b, q) /\
    (b = true <-> drop j l = [] \/ (a <> zero /\ a ∉ drop j l)).
Proof.
  induction n as [|n IH]; intros i j Hwf Hl Ha Hn.
  - exists true. split; [done|]. split; [|done]. intros _. left.
    apply drop_ge. lia.
  - pose proof (elements_length q l Hwf Hl) as Hlen.
    pose proof (Size_range q Hwf) as HS.
    destruct (wf_inv q Hwf) as (k & Hk & Hm & Hd & Hh & Ht & HC).
    pose proof (lookup_lt_Some _ _ _ Ha) as Hi.
    destruct (item_lookup q l (Z.of_nat i) Hwf Hl) as (a' & Ha' & Hruni); [lia|].
    rewrite Nat2Z.id in Ha'. assert (a' = a) as -> by congruence.
    destruct (item_lookup q l (Z.of_nat j) Hwf Hl) as (y & Hy & Hrunj); [lia|].
    rewrite Nat2Z.id in Hy.
    simpl. unfold mbind, M_bind, bind.
    rewrite !to_int_small by lia. rewrite Hruni, Hrunj.
    rewrite (drop_S l y j Hy).
    destruct (decide (a = y)) as [->|Hne].
    { exists false. split; [done|]. split; [done|].
      intros [?|[_ Hnin]]; [done|]. exfalso. apply Hnin, elem_of_cons. by left. }
    rewrite Hruni. destruct (decide (a = zero)) as [->|Hnz].
    { exists false. split; [done|]. split; [done|]. by intros [?|[? _]]. }
    rewrite size_t_small by lia.
    replace (Z.of_nat j + 1) with (Z.of_nat (S j)) by lia.
    destruct (IH i (S j) Hwf Hl Ha) as (b & Hrun & Hb); [lia|].
    exists b. split; [done|]. rewrite Hb. split.
    + intros [Hnil|[_ Hnin]]; right; (split; [done|]).
      * rewrite Hnil. intros [?|?%elem_of_nil]%elem_of_cons; done.
      * intros [?|?]%elem_of_cons; done.
    + intros [?|[_ Hnin]]; [done|]. right. split; [done|].
      intros Hin. apply Hnin, elem_of_cons. by right.
Qed.

Lemma Unique_outer_run q l n : forall (i : nat),
  wf q -> elements q = Some l -> (i + n = length l)%nat ->
  exists b, Unique_outer zero n (Z.of_nat i) q = Some (b, q) /\
    (b = true <->
     NoDup (drop i l) /\
     forall k x, drop i l !! k = Some x -> (S k < length (drop i l))%nat ->
                 x <> zero).
Proof.
  induction n as [|n IH]; intros i Hwf Hl Hn.
  - exists true. split; [done|]. rewrite drop_ge by lia.
    split; [|done]. intros _. split; [constructor|].
    intros k x Hx. by rewrite lookup_nil in Hx.
  - pose proof (elements_length q l Hwf Hl) as Hlen.
    pose proof (Size_range q Hwf) as HS.
    destruct (wf_inv q Hwf) as (k & Hk & Hm & Hd & Hh & Ht & HC).
    destruct (lookup_lt_is_Some_2 l i) as [a Ha]; [lia|].
    simpl. unfold mbind, M_bind, bind, gets.
    rewrite size_t_small by lia.
    replace (Z.of_nat i + 1) with (Z.of_nat (S i)) by lia.
    replace (Z.to_nat (Size q - Z.of_nat (S i))) with n by lia.
    destruct (Unique_inner_run q l a n i (S i) Hwf Hl Ha) as (b & Hrun & Hb);
      [lia|].
    rewrite Hrun. rewrite (drop_S l a i Ha).
    destruct (IH (S i) Hwf Hl) as (b' & Hrun' & Hb'); [lia|].
    destruct b.
    + rewrite Hrun'. exists b'. split; [done|]. rewrite Hb'.
      destruct Hb as [Hb _]. specialize (Hb eq_refl).
      rewrite NoDup_cons. split.
      * intros [Hnd Hz]. split.
        { split; [|done]. destruct Hb as [->|[_ ?]]; [by intros ?%elem_of_nil|done]. }
        intros [|k'] x Hx Hlt; simpl in *.
        -- injection Hx as <-. destruct Hb as [Hnil|[? _]]; [|done].
           rewrite Hnil in Hlt. simpl in Hlt. lia.
        -- apply (Hz k' x Hx). lia.
      * intros [[_ Hnd] Hz]. split; [done|].
        intros k' x Hx Hlt. apply (Hz (S k') x Hx). simpl. lia.
    + exists false. split; [done|]. split; [done|].
      intros [[Hnin Hnd]%NoDup_cons Hz].
      destruct Hb as [_ Hb]. enough (false = true) by done. apply Hb.
      destruct (drop (S i) l) as [|y rest] eqn:Hrest; [by left|].
      right. split; [|done]. apply (Hz 0%nat a eq_refl). simpl. lia.
Qed.
End SearchingFacts.

Section MoreMutatorFacts.
Context `{DataModel} {T : Type}.
Variable uninit : T.
Implicit Types q : WaitFreeQueue (T:=T).
Implicit Types d l : list T.

Lemma TakeFront_times_run n : forall q l,
  wf q -> elements q = Some l ->
  ((n <= length l)%nat ->
     exists q', TakeFront_times n q = Some (take n l, q') /\ wf q' /\
       elements q' = Some (drop n l) /\ Size q' = Size q - Z.of_nat n) /\
  ((length l < n)%nat -> TakeFront_times n q = None).
Proof.
  induction n as [|n IH]; intros q l Hwf Hl.
  - split; [|lia]. intros _. exists q. rewrite drop_0.
    split; [done|]. split; [done|]. split; [done|]. lia.
  - pose proof (elements_length q l Hwf Hl) as Hlen.
    destruct l as [|x l].
    + split; [simpl; lia|]. intros _. simpl. unfold mbind, M_bind, bind.
      rewrite TakeFront_empty; [done|]. apply Size_0; [done|]. simpl in Hlen. lia.
    + destruct (TakeFront_spec q x l Hwf Hl) as (q1 & Hq1 & Hwf1 & Hl1 & HS1).
      destruct (IH q1 l Hwf1 Hl1) as [Hok Hfail].
      simpl. unfold mbind, M_bind, bind. rewrite Hq1. split.
      * intros Hn. destruct Hok as (q' & Hrun & Hwf' & Hl' & HS'); [lia|].
        rewrite Hrun. exists q'. split; [done|]. split; [done|].
        split; [done|]. lia.
      * intros Hn. rewrite Hfail by lia. done.
Qed.

(** The copy loop of [Resize] on an array that is too short. *)
Lemma Resize_copy_overflow q n : forall (i : nat) d,
  wf q -> Z.of_nat (i + n) <= Size q -> (i <= length d < i + n)%nat ->
  Resize_copy n (Z.of_nat i) d (Z.of_nat i) q = None.
Proof.
  induction n as [|n IH]; intros i d Hwf Hi Hlen; [lia|].
  pose proof (Size_range q Hwf) as HS.
  destruct (wf_inv q Hwf) as (k & Hk & Hm & Hd & Hh & Ht & HC).
  simpl. run. rewrite to_int_small, ItemAt_eq by (done || lia). run.
  rewrite array_load_phys.
  destruct (lookup_lt_is_Some_2 (data q) (phys q (Z.of_nat i))) as [x Hx];
    [by apply phys_lt|].
  rewrite Hx. destruct (decide (i = length d)) as [->|Hne].
  - rewrite array_store_None by lia. done.
  - rewrite array_store_Some by lia.
    unfold uadd. rewrite ulong_small by lia.
    replace (Z.of_nat i + 1) with (Z.of_nat (S i)) by lia.
    apply IH; [done|lia|]. rewrite length_insert. lia.
Qed.

Lemma mod_eq_iff C a b : 0 < C -> a mod C = b mod C <-> (a - b) mod C = 0.
Proof.
  intros HC. rewrite Z.mod_divide by lia. split.
  - intros Heq. exists (a / C - b / C).
    pose proof (Z.div_mod a C). pose proof (Z.div_mod b C). nia.
  - intros [c Hc]. replace a with (b + c * C) by lia. apply Z.mod_add. lia.
Qed.

Lemma array_store_length d i v d' :
  array_store d i v = Some d' -> length d' = length d.
Proof.
  unfold array_store. case_match; [|done]. intros [= <-]. apply length_insert.
Qed.

Lemma same_array_refl q : same_array q q.
Proof. done. Qed.

Lemma same_array_trans q1 q2 q3 :
  same_array q1 q2 -> same_array q2 q3 -> same_array q1 q3.
Proof. intros [? ?] [? ?]. split; congruence. Qed.

Lemma data_store_same_array i v q q' :
  data_store i v q = Some (tt, q') ->
  same_array q q' /\ head q' = head q /\ tail q' = tail q.
Proof.
  unfold data_store. run.
  destruct (array_store (data q) i v) as [d|] eqn:Hst; [|done].
  intros [= <-]. apply array_store_length in Hst. by repeat split.
Qed.

Lemma copy_same_array src dst q q' :
  (x ← data_load src; data_store dst x) q = Some (tt, q') -> same_array q q'.
Proof.
  unfold data_load. run. destruct (array_load (data q) src) as [x|]; [|done].
  intros Hst. by apply (data_store_same_array dst x).
Qed.

Lemma for_loop_same_array body n :
  (forall i q q', body i q = Some (tt, q') -> same_array q q') ->
  forall i q q', for_loop n i body q = Some (tt, q') -> same_array q q'.
Proof.
  intros Hbody. induction n as [|n IH]; intros i q q'; simpl.
  - by intros [= <-].
  - unfold mbind, M_bind, bind.
    destruct (body i q) as [[[] q1]|] eqn:Hb; [|done].
    intros Hrest. eapply same_array_trans; eauto.
Qed.

Lemma Insert_same_array v q b q' :
  Insert v q = Some (b, q') -> same_array q q'.
Proof.
  unfold Insert. run. case_match; [by intros [= _ <-]|].
  destruct (array_store _ _ _) as [d|] eqn:Hst; [|done].
  intros [= _ <-]. apply array_store_length in Hst. by split.
Qed.

Lemma PopFront_same_array q q' :
  PopFront q = Some (tt, q') -> same_array q q'.
Proof. unfold PopFront. run. case_match; by intros [= <-]. Qed.

Lemma TakeFront_same_array q x q' :
  TakeFront q = Some (x, q') -> same_array q q'.
Proof.
  unfold TakeFront. unfold mbind, M_bind, bind, gets, mret, M_ret, ret.
  destruct (deref (Front q) q) as [[y q1]|] eqn:Hd; [|done].
  assert (q1 = q) as ->.
  { revert Hd. unfold deref, data_load. run.
    destruct (Front q); [done|]. by case_match; intros [= _ <-]. }
  destruct (PopFront q) as [[[] q2]|] eqn:Hp; [|done].
  intros [= _ <-]. by apply PopFront_same_array.
Qed.

Lemma EraseItemAt_same_array index q q' :
  EraseItemAt index q = Some (tt, q') -> same_array q q'.
Proof.
  unfold EraseItemAt. run. case_match.
  - unfold EraseItemAtMoveFront. run.
    destruct (for_int _ _ _) as [[[] q1]|] eqn:Hloop; [|done].
    intros [= <-]. apply for_loop_same_array in Hloop; [done|].
    intros i q2 q3. unfold EraseItemAtMoveFront_body.
    unfold mbind at 1 2, M_bind at 1 2, bind at 1 2, gets.
    apply copy_same_array.
  - unfold EraseItemAtMoveBack. run.
    destruct (for_int _ _ _) as [[[] q1]|] eqn:Hloop; [|done].
    intros [= <-]. apply for_loop_same_array in Hloop; [done|].
    intros i q2 q3. unfold EraseItemAtMoveBack_body.
    unfold mbind at 1 2, M_bind at 1 2, bind at 1 2, gets.
    apply copy_same_array.
Qed.
End MoreMutatorFacts.

(** * More properties of the queue *)

Section MoreQueueProperties.
Context `{DataModel} {T : Type} `{EqDecision T}.
Variable uninit : T.
Variable zero : T.
Implicit Types q : WaitFreeQueue (T:=T).
Implicit Types l : list T.

(** X1.  [CapacityLeft()] is [Capacity() - Size()] and never negative;
    [Insert] fails exactly when it is 0, and a successful [Insert] takes
    one off it. *)
Theorem CapacityLeft_counts_the_free_slots q value :
  wf q ->
  CapacityLeft q = Capacity q - Size q /\ 0 <= CapacityLeft q /\
  (CapacityLeft q = 0 <-> exists q', Insert value q = Some (false, q')) /\
  (0 < CapacityLeft q ->
     exists q', Insert value q = Some (true, q') /\
                CapacityLeft q' = CapacityLeft q - 1).
Proof.
  intros Hwf. pose proof (Size_range q Hwf) as HS.
  pose proof (CapacityLeft_wf q Hwf) as HL.
  pose proof (is_full_Size q Hwf) as Hfull.
  pose proof (Insert_run q value Hwf) as Hins.
  rewrite Capacity_wf by done.
  split; [done|]. split; [lia|].
  destruct (Z.eqb_spec ((tail q + 1) mod (maxElementsMask q + 1)) (head q))
    as [Hf|Hnf].
  - assert (Size q = maxElementsMask q) as HSf by by apply Hfull.
    split; [|lia]. split; [eauto|lia].
  - assert (Size q <> maxElementsMask q) as HSf by (by rewrite <- Hfull).
    split.
    + split; [lia|]. intros [q' Hq']. by rewrite Hq' in Hins.
    + intros _. eexists. split; [done|].
      pose proof (Insert_wf q value _ _ Hwf Hins) as Hwf'.
      destruct (Insert_true q value _ Hwf Hins) as [HS' _].
      rewrite CapacityLeft_wf by done. rewrite HS'. simpl. lia.
Qed.

(** X2.  [Clear()] empties the queue without touching the array or [head]:
    afterwards [Size()] is 0, [Front()] is null, no element is left and
    all of the capacity is free again. *)
Theorem Clear_empties_the_queue q :
  wf q ->
  exists q',
    Clear q = Some (tt, q') /\ wf q' /\
    Size q' = 0 /\ Front q' = null /\ elements q' = Some [] /\
    CapacityLeft q' = Capacity q /\
    data q' = data q /\ head q' = head q /\
    maxElementsMask q' = maxElementsMask q.
Proof.
  intros Hwf. destruct (Clear_spec q Hwf) as (Hrun & Hwf' & Hel).
  exists (set_tail (head q) q). split; [done|]. split; [done|].
  assert (Size (set_tail (head q) q) = 0) as HS by (by apply Size_0).
  split; [done|]. split; [by rewrite Front_eq, decide_True|].
  split; [done|]. rewrite CapacityLeft_wf, Capacity_wf, HS by done.
  simpl. repeat split. lia.
Qed.

(** X3.  [Contains(item)] returns true exactly when [item] is one of the
    elements [*ItemAt(0)], ..., [*ItemAt(Size()-1)], and leaves the queue
    as it is; slots outside the queue are not looked at. *)
Theorem Contains_iff_an_element q l value :
  wf q -> elements q = Some l ->
  Contains value q = Some (bool_decide (value ∈ l), q).
Proof.
  intros Hwf Hl. pose proof (elements_length q l Hwf Hl) as Hlen.
  pose proof (Size_range q Hwf) as HS.
  destruct (wf_inv q Hwf) as (k & Hk & Hm & Hd & Hh & Ht & HC).
  unfold Contains. unfold mbind, M_bind, bind, gets.
  rewrite to_int_small by lia.
  change 0 with (Z.of_nat 0).
  rewrite (Contains_loop_run q l value) by (done || lia). by rewrite drop_0.
Qed.

(** X4.  [ContainerUniqueAndNoNullElements] returns true exactly when the
    elements are pairwise different and every element but the last one is
    not 0: the test against 0 sits in the inner loop, which does not run
    for the last element.  The queue is left as it is. *)
Theorem ContainerUniqueAndNoNullElements_skips_the_last q l :
  wf q -> elements q = Some l ->
  exists b,
    ContainerUniqueAndNoNullElements zero q = Some (b, q) /\
    (b = true <->
     NoDup l /\
     forall k x, l !! k = Some x -> (S k < length l)%nat -> x <> zero).
Proof.
  intros Hwf Hl. pose proof (elements_length q l Hwf Hl) as Hlen.
  unfold ContainerUniqueAndNoNullElements. unfold mbind, M_bind, bind, gets.
  change 0 with (Z.of_nat 0).
  destruct (Unique_outer_run zero q l (Z.to_nat (Size q)) 0 Hwf Hl)
    as (b & Hrun & Hb); [lia|].
  exists b. split; [done|]. by rewrite drop_0 in Hb.
Qed.

(** X5.  [TakeFront] called [n] times on a queue of at least [n] elements
    returns its first [n] elements in their order and leaves the others;
    called more often than there are elements it dereferences a null
    pointer. *)
Theorem TakeFront_times_takes_a_prefix q l n :
  wf q -> elements q = Some l ->
  ((n <= length l)%nat ->
     exists q', TakeFront_times n q = Some (take n l, q') /\
       elements q' = Some (drop n l) /\ Size q' = Size q - Z.of_nat n) /\
  ((length l < n)%nat -> TakeFront_times n q = None).
Proof.
  intros Hwf Hl. destruct (TakeFront_times_run n q l Hwf Hl) as [Hok Hfail].
  split; [|done]. intros Hn.
  destruct (Hok Hn) as (q' & ? & _ & ? & ?). by exists q'.
Qed.

(** X6.  First in, first out: the values [Insert] puts into a queue with
    room for them come back from [TakeFront] in the order of insertion,
    after the elements that were there, and the queue ends empty. *)
Theorem Insert_then_TakeFront_round_trip q l vs :
  wf q -> elements q = Some l ->
  Size q + Z.of_nat (length vs) <= Capacity q ->
  exists q1 q2,
    insert_all vs q = Some q1 /\
    TakeFront_times (length l + length vs) q1 = Some (l ++ vs, q2) /\
    Size q2 = 0 /\ elements q2 = Some [].
Proof.
  intros Hwf Hl Hroom. rewrite Capacity_wf in Hroom by done.
  destruct (insert_all_spec vs q l Hwf Hl Hroom)
    as (q1 & Hq1 & Hwf1 & _ & HS1 & Hl1).
  destruct (TakeFront_times_run (length l + length vs) q1 (l ++ vs) Hwf1 Hl1)
    as [Hok _].
  destruct Hok as (q2 & Hq2 & Hwf2 & Hl2 & HS2); [rewrite length_app; lia|].
  pose proof (elements_length q l Hwf Hl).
  exists q1, q2. split; [done|].
  rewrite <- length_app in Hq2 |- *. rewrite firstn_all in Hq2.
  split; [done|]. split; [lia|].
  rewrite Hl2. f_equal. apply drop_ge. rewrite length_app. lia.
Qed.
End MoreQueueProperties.

Section EdgeCases.
Context `{DataModel} {T : Type} `{EqDecision T}.
Variable uninit : T.
Implicit Types q : WaitFreeQueue (T:=T).
Implicit Types l : list T.

(** X7.  [Resize] does not check that the elements fit: to a length below
    [Size()] its copy loop writes past the end of the new array, and to a
    length equal to [Size()] it succeeds with [tail] one past the last
    slot, where the next [Insert] writes outside the array. *)
Theorem Resize_needs_room_for_the_elements q n :
  wf q -> valid_size n ->
  (RoundUpToNextPow2 (u32 n) < Size q -> Resize uninit n q = None) /\
  (RoundUpToNextPow2 (u32 n) = Size q ->
     exists q',
       Resize uninit n q = Some (tt, q') /\
       tail q' = Z.of_nat (length (data q')) /\
       Size q' = Capacity q' + 1 /\
       (2 <= Size q -> forall v, Insert v q' = None)).
Proof.
  intros Hwf Hn. pose proof (Size_range q Hwf) as HS.
  destruct (RoundUpToNextPow2_valid n Hn) as (j & Hj & HR & _).
  pose proof (pow2_pos j). pose proof (pow2_mono j 31).
  destruct (wf_inv q Hwf) as (k & Hk & Hm & Hd & Hh & Ht & HC).
  split.
  - intros Hlt. unfold Resize. run.
    rewrite (size_t_small (RoundUpToNextPow2 _)) by lia.
    change 0 with (Z.of_nat 0) at 1 2.
    rewrite (Resize_copy_overflow q (Z.to_nat (Size q)) 0); [done|done|lia|].
    unfold new_array. rewrite length_replicate. lia.
  - intros Heq.
    destruct (Resize_copy_run q (Z.to_nat (Size q)) 0
                (new_array uninit (RoundUpToNextPow2 (u32 n))) Hwf)
      as (d' & Hrun & Hlen & Hd').
    { lia. } { unfold new_array. rewrite length_replicate. lia. }
    unfold new_array in Hlen. rewrite length_replicate in Hlen.
    exists (mkQueue d' (RoundUpToNextPow2 (u32 n) - 1) 0 (Size q)).
    split.
    { unfold Resize. run. rewrite (size_t_small (RoundUpToNextPow2 _)) by lia.
      change (Z.of_nat 0) with 0 in Hrun. rewrite Hrun. simpl.
      rewrite (size_t_small (_ - 1)), (ulong_small (_ - 1)) by lia.
      unfold set_maxElementsMask. simpl. do 3 f_equal. lia. }
    split; [simpl; lia|]. split.
    { unfold Size at 1, Capacity. simpl.
      destruct (Z.geb_spec (Size q) 0); [|lia].
      unfold usub. rewrite Z.sub_0_r, ulong_small, to_int_small by lia. lia. }
    intros H2 v. unfold Insert. run. simpl.
    rewrite HR, next_index by lia.
    assert (1 <= j) by (destruct (decide (j = 0)) as [->|]; [simpl in *|]; lia).
    pose proof (Z.pow_le_mono_r 2 1 j).
    assert ((Size q + 1) mod 2 ^ j = 1) as ->.
    { rewrite <- Heq, HR. rewrite <- (Z.mul_1_l (2 ^ j)) at 1.
      rewrite Z.add_comm, Z.mod_add by lia. apply Z.mod_small. lia. }
    simpl. by rewrite array_store_None by lia.
Qed.

(** X8.  No memory allocation after initialization: [Insert], [PopFront],
    [TakeFront], [Clear] and [EraseItemAt] leave the length of the array
    and the mask as they are, whatever the state of the queue and whatever
    they are given. *)
Theorem no_allocation_after_initialization (o : op) q q' :
  keeps_array o = true -> run_op uninit o q = Some (tt, q') ->
  same_array q q'.
Proof.
  destruct o as [v|v|n| | | | |i]; try done; intros _; simpl.
  - unfold mbind, M_bind, bind.
    destruct (Insert v q) as [[b q1]|] eqn:Hins; [|done].
    intros [= <-]. by apply Insert_same_array in Hins.
  - apply PopFront_same_array.
  - unfold mbind, M_bind, bind.
    destruct (TakeFront q) as [[x q1]|] eqn:Htake; [|done].
    intros [= <-]. by apply TakeFront_same_array in Htake.
  - unfold Clear. run. by intros [= <-].
  - apply EraseItemAt_same_array.
Qed.

(** X9.  [ItemAt] always points into the array, and two indices give the
    same slot exactly when they differ by a multiple of the array length:
    an index outside [0, Size()) is not refused but wraps around. *)
Theorem ItemAt_wraps_around q i j :
  wf q ->
  (exists s, ItemAt i q = slot s /\ 0 <= s <= maxElementsMask q) /\
  (ItemAt i q = ItemAt j q <-> (i - j) mod (maxElementsMask q + 1) = 0).
Proof.
  intros Hwf. destruct (wf_inv q Hwf) as (k & Hk & Hm & Hd & Hh & Ht & HC).
  rewrite !ItemAt_eq by done. split.
  - eexists. split; [done|]. pose proof (phys_lt q i Hwf). lia.
  - unfold phys.
    pose proof (Z.mod_pos_bound (head q + i) (maxElementsMask q + 1)).
    pose proof (Z.mod_pos_bound (head q + j) (maxElementsMask q + 1)).
    replace (i - j) with (head q + i - (head q + j)) by lia.
    rewrite <- mod_eq_iff by lia. split.
    + intros [= Heq]. lia.
    + by intros ->.
Qed.

(** X10.  On a queue that holds an element [EraseItemAt(0)] does what
    [PopFront()] does.  On an empty queue [PopFront()] does nothing, while
    [EraseItemAt(0)] still advances [head], after which the queue is
    full. *)
Theorem EraseItemAt_0_is_PopFront_unless_empty q :
  wf q ->
  (head q <> tail q -> EraseItemAt 0 q = PopFront q) /\
  (head q = tail q ->
     PopFront q = Some (tt, q) /\
     exists q', EraseItemAt 0 q = Some (tt, q') /\ wf q' /\
                Size q' = Capacity q /\ CapacityLeft q' = 0).
Proof.
  intros Hwf. pose proof (Size_range q Hwf) as HS.
  destruct (wf_inv q Hwf) as (k & Hk & Hm & Hd & Hh & Ht & HC).
  assert (EraseItemAt 0 q =
          Some (tt, set_head ((head q + 1) mod (maxElementsMask q + 1)) q))
    as Herase.
  { unfold EraseItemAt. run. rewrite ulong_small by lia.
    rewrite Z.shiftr_div_pow2 by lia.
    pose proof (Z.div_pos (Size q) (2 ^ 1)).
    destruct (Z.leb_spec 0 (Size q / 2 ^ 1)); [|lia].
    unfold EraseItemAtMoveFront. run. simpl.
    by rewrite next_index_wf. }
  split.
  - intros Hne. by rewrite Herase, PopFront_run, decide_False.
  - intros Heq. split; [by rewrite PopFront_run, decide_True|].
    eexists. split; [done|].
    pose proof (advance_head_wf q (data q) Hwf eq_refl) as Hwf'.
    split; [done|].
    assert (Size (set_head ((head q + 1) mod (maxElementsMask q + 1)) q)
            = maxElementsMask q) as HS'.
    { rewrite Size_cases by done. simpl.
      pose proof (Z.mod_pos_bound (head q + 1) (maxElementsMask q + 1)).
      destruct (decide (head q = maxElementsMask q)) as [Hlast|Hlast].
      - rewrite Hlast, Z.mod_same by lia.
        destruct (Z.leb_spec 0 (tail q)); lia.
      - rewrite Z.mod_small by lia.
        destruct (Z.leb_spec (head q + 1) (tail q)); lia. }
    rewrite CapacityLeft_wf, Capacity_wf, HS' by done. simpl. lia.
Qed.
End EdgeCases.

(** ** The calls that keep the array, with any arguments *)

Section InPlaceFacts.
Context `{DataModel} {T : Type}.
Variable uninit : T.
Implicit Types q : WaitFreeQueue (T:=T).
Implicit Types d : list T.









End InPlaceFacts.

(** * The array: kept by most calls, replaced by [Resize] *)

Section ArrayProperties.
Context `{DataModel} {T : Type}.
Variable uninit : T.
Implicit Types q : WaitFreeQueue (T:=T).
Implicit Types l : list T.


End ArrayProperties.

(** * More properties of the two threads *)

Section ThreadProperties.
Context `{DataModel} {T : Type}.
Variable uninit : T.
Implicit Types q : WaitFreeQueue (T:=T).
Implicit Types s : state (T:=T).

Lemma step_own_steps_left t s s' :
  step t s s' -> ~ idle t s -> (steps_left t s' < steps_left t s)%nat.
Proof.
  inversion 1; subst; unfold idle, steps_left; simpl; intros; (done || lia).
Qed.

Lemma step_other_steps_left t u s s' :
  u <> t -> step u s s' -> steps_left t s' = steps_left t s.
Proof. intros Hu. destruct t; inversion 1; subst; done. Qed.

Lemma steps_left_bound t s :
  (steps_left t s <= match t with Producer => 3 | Consumer => 7 end)%nat /\
  (steps_left t s = 0%nat <-> idle t s).
Proof.
  destruct t; unfold steps_left, idle; simpl.
  - destruct (ppc s); simpl; split; (lia || done).
  - destruct (cpc s); simpl; split; (lia || done).
Qed.

Lemma steps_inside_a_call_left t n s s' :
  steps_inside_a_call t n s s' -> (n <= steps_left t s)%nat.
Proof.
  induction 1 as [s|n s s1 s2 Hbusy Hstep _ IH|n u s s1 s2 Hu Hstep _ IH].
  - lia.
  - pose proof (step_own_steps_left t s s1 Hstep Hbusy). lia.
  - pose proof (step_other_steps_left t u s s1 Hu Hstep). lia.
Qed.

(** A thread that runs alone reaches the end of its call. *)
Lemma thread_alone_ends_its_call l0 t (m : nat) : forall s,
  invariant l0 s -> (steps_left t s <= m)%nat ->
  exists n s', (n <= m)%nat /\ nsteps (step t) n s s' /\ idle t s'.
Proof.
  induction m as [|m IH]; intros s Hinv Hm.
  - exists 0%nat, s. split; [done|]. split; [constructor|].
    apply steps_left_bound. lia.
  - destruct (decide (steps_left t s = 0%nat)) as [Hz|Hnz].
    + exists 0%nat, s. split; [lia|]. split; [constructor|].
      by apply steps_left_bound.
    + destruct (step_enabled l0 s t uninit Hinv) as [s1 Hstep].
      assert (~ idle t s) as Hbusy by (by rewrite <- (proj2 (steps_left_bound t s))).
      pose proof (step_own_steps_left t s s1 Hstep Hbusy) as Hlt.
      destruct (IH s1) as (n & s' & Hn & Hrun & Hidle);
        [by eapply step_invariant|lia|].
      exists (S n), s'. split; [lia|]. split; [|done].
      by eapply nsteps_l.
Qed.

(** X11.  Wait-freedom.  In every state that interleaved calls reach from
    a new queue, each thread can take its next step: neither ever waits
    for the other.  From there a thread takes at most 3 (the producer,
    inside [Insert]) or 7 (the consumer, inside [Front], [*p] and
    [PopFront]) steps inside its call, however the steps of the other
    thread are interleaved with them, and running alone it does reach the
    end of its call within that many steps. *)
Theorem a_call_ends_within_a_fixed_number_of_steps maxElements s t :
  valid_size maxElements ->
  interleaving (initial (WaitFreeQueue_new uninit maxElements)) s ->
  let bound := match t with Producer => 3%nat | Consumer => 7%nat end in
  (exists s', step t s s') /\
  (forall n s', steps_inside_a_call t n s s' -> (n <= bound)%nat) /\
  (exists n s', (n <= bound)%nat /\ nsteps (step t) n s s' /\ idle t s').
Proof.
  intros Hn Hrun bound.
  destruct (new_wf uninit maxElements Hn) as (Hwf0 & _ & Hl0).
  pose proof (interleaving_invariant [] _ s
                (initial_invariant _ [] Hwf0 Hl0) Hrun) as Hinv.
  destruct (steps_left_bound t s) as [Hbound _].
  split; [by eapply step_enabled|]. split.
  - intros n s' Hsteps. apply steps_inside_a_call_left in Hsteps.
    subst bound. lia.
  - by apply (thread_alone_ends_its_call []).
Qed.

(** X12.  The two threads never touch the same slot at the same time: in
    every state that interleaved calls reach from a new queue, the slot
    the producer is about to write is inside the array, holds none of the
    elements of the queue, and is not the slot the consumer is about to
    read; and the consumer reads a slot inside the array. *)
Theorem no_slot_is_written_while_it_is_read maxElements s :
  valid_size maxElements ->
  interleaving (initial (WaitFreeQueue_new uninit maxElements)) s ->
  (forall v t nt, ppc s = PWrite v t nt ->
     0 <= t <= maxElementsMask (mem s) /\
     (forall i, 0 <= i < Size (mem s) -> phys (mem s) i <> Z.to_nat t) /\
     (forall p, cpc s = CHold p -> p <> t)) /\
  (forall p, cpc s = CHold p -> 0 <= p <= maxElementsMask (mem s)).
Proof.
  intros Hn Hrun. destruct (new_wf uninit maxElements Hn) as (Hwf0 & _ & Hl0).
  pose proof (interleaving_invariant [] _ s
                (initial_invariant _ [] Hwf0 Hl0) Hrun)
    as (Hwf & Hp & Hc & _).
  pose proof (Size_range _ Hwf) as HS.
  destruct (wf_inv _ Hwf) as (k & Hk & Hm & Hd & Hh & Ht & HC).
  split.
  - intros v t nt Hpc. rewrite Hpc in Hp. destruct Hp as (-> & _ & Hnf).
    split; [lia|]. split.
    + intros i Hi Heq. unfold phys in Heq.
      pose proof (Z.mod_pos_bound (head (mem s) + i) (maxElementsMask (mem s) + 1)).
      assert ((head (mem s) + i) mod (maxElementsMask (mem s) + 1)
              = tail (mem s)) as Hmod by lia.
      rewrite Size_cases in Hi by done.
      rewrite (mod_add_once (maxElementsMask (mem s) + 1)) in Hmod
        by (destruct (Z.leb_spec (head (mem s)) (tail (mem s))); lia).
      destruct (Z.leb_spec (head (mem s)) (tail (mem s))),
               (Z.ltb_spec (head (mem s) + i) (maxElementsMask (mem s) + 1));
        lia.
    + intros p Hcpc. rewrite Hcpc in Hc. destruct Hc as [-> Hne]. done.
  - intros p Hcpc. rewrite Hcpc in Hc. destruct Hc as [-> _]. lia.
Qed.
End ThreadProperties.

(** * More properties of the harness *)

Section MoreHarnessFacts.
Import InOrderTest InOrderTestMore.
Local Open Scope string_scope.
Local Open Scope Z_scope.
Local Open Scope list_scope.

Lemma out_of_order_reports_app out out' :
  out_of_order_reports (out ++ out') =
    (out_of_order_reports out + out_of_order_reports out')%nat.
Proof. unfold out_of_order_reports. by rewrite filter_app, length_app. Qed.

Lemma handle_all_quiet lastMessageNumber msgs :
  numbers msgs = [] -> handle_all lastMessageNumber msgs = ([], lastMessageNumber).
Proof.
  induction msgs as [|[messageId n] msgs IH]; [done|]. simpl.
  destruct (messageId =? 191); [done|]. intros Hq. simpl. by rewrite IH.
Qed.

Lemma rounds_with_room_range n : forall i c,
  0 <= rounds_with_room n i c <= Z.of_nat n /\
  ((forall k, outbound_pending c k < 1000) ->
     rounds_with_room n i c = Z.of_nat n).
Proof.
  induction n as [|n IH]; intros i c; [simpl; lia|].
  destruct (IH (S i) c) as [Hr Hall].
  change (rounds_with_room (S n) i c)
    with ((if outbound_pending c i <? 1000 then 1 else 0)
          + rounds_with_room n (S i) c).
  split.
  - destruct (_ <? _); lia.
  - intros Hroom. rewrite Hall by done.
    pose proof (Hroom i). destruct (Z.ltb_spec (outbound_pending c i) 1000); lia.
Qed.

Lemma send_loop_quiet n : forall i c lastMessageNumber,
  (forall k, numbers (inbound c k) = []) ->
  0 <= lastMessageNumber < 2 ^ 32 ->
  send_loop n i c lastMessageNumber =
    ([], u32 (lastMessageNumber + rounds_with_room n i c)).
Proof.
  induction n as [|n IH]; intros i c lastMessageNumber Hq Hlast.
  - simpl. rewrite Z.add_0_r. unfold u32. by rewrite Z.mod_small.
  - change (rounds_with_room (S n) i c)
      with ((if outbound_pending c i <? 1000 then 1 else 0)
            + rounds_with_room n (S i) c).
    cbn [send_loop]. rewrite handle_all_quiet by done.
    unfold SendMessage.
    destruct (outbound_pending c i <? 1000).
    + rewrite IH by (done || (apply Z.mod_pos_bound; lia)). simpl.
      f_equal. unfold u32. rewrite Zplus_mod_idemp_l. f_equal. lia.
    + rewrite IH by done. simpl. do 2 f_equal; lia.
Qed.

Lemma wait_while_pending_None ps st :
  wait_while_pending ps st = None <->
  Forall (fun s => s = ConnectionPending) ps /\ st = ConnectionPending.
Proof.
  induction ps as [|s ps IH]; simpl.
  - destruct st; split; intros Hx; try done; by destruct Hx as [_ [=]].
  - rewrite Forall_cons. destruct s.
    + rewrite IH. split; [by intros [? ?]|by intros [[_ ?] ?]].
    + split; [done|by intros [[[=] _] _]].
    + split; [done|by intros [[[=] _] _]].
    + split; [done|by intros [[[=] _] _]].
Qed.

Lemma handle_all_reports lastMessageNumber msgs :
  out_of_order_reports (handle_all lastMessageNumber msgs).1 = 0%nat <->
  ascending lastMessageNumber (numbers msgs).
Proof.
  revert lastMessageNumber.
  induction msgs as [|[messageId n] msgs IH]; intros lastMessageNumber; [done|].
  cbn [handle_all numbers HandleMessage].
  destruct (messageId =? 191); cbn [negb].
  - specialize (IH n). destruct (handle_all n msgs) as [out' last'].
    cbn [ascending fst] in *.
    rewrite out_of_order_reports_app.
    destruct (Z.leb_spec n lastMessageNumber).
    + split; [done|lia].
    + change (out_of_order_reports _) with 0%nat at 1.
      rewrite Nat.add_0_l, IH. split; [done|by intros [_ ?]].
  - specialize (IH lastMessageNumber).
    by destruct (handle_all lastMessageNumber msgs) as [out' last'].
Qed.

Lemma handle_all_counter lastMessageNumber msgs :
  (handle_all lastMessageNumber msgs).2 =
    default lastMessageNumber (last (numbers msgs)).
Proof.
  revert lastMessageNumber.
  induction msgs as [|[messageId n] msgs IH]; intros lastMessageNumber; [done|].
  cbn [handle_all numbers HandleMessage].
  destruct (messageId =? 191); cbn [negb].
  - specialize (IH n). destruct (handle_all n msgs) as [out' last'].
    cbn [snd] in *. rewrite IH, last_cons.
    by destruct (last (numbers msgs)).
  - specialize (IH lastMessageNumber).
    by destruct (handle_all lastMessageNumber msgs) as [out' last'].
Qed.
End MoreHarnessFacts.

Section MoreHarnessProperties.
Import InOrderTest InOrderTestMore.
Local Open Scope string_scope.
Local Open Scope Z_scope.
Local Open Scope list_scope.

Variable StringToSocketTransportLayer : string -> SocketTransportLayer.
Variable atoi : string -> Z.
Variable StartServer : Z -> SocketTransportLayer -> option (list (Z * Z)).
Variable Connect : string -> Z -> SocketTransportLayer -> option Connection.

(** X13.  [HandleMessage] compares each number with the one received just
    before it: a run of the handler reports no message out of order
    exactly when the numbers of the messages of type 191 ascend strictly
    from the counter it starts with.  The counter ends as the last of
    these numbers, reported or not, and a message for which
    [ComputeContentID] gives 0 prints nothing and leaves the counter. *)
Theorem HandleMessage_reports_every_descent lastMessageNumber msgs :
  (out_of_order_reports (handle_all lastMessageNumber msgs).1 = 0%nat <->
     ascending lastMessageNumber (numbers msgs)) /\
  (handle_all lastMessageNumber msgs).2 =
    default lastMessageNumber (last (numbers msgs)) /\
  (forall messageId n,
     ComputeContentID messageId = 0 ->
     HandleMessage lastMessageNumber (messageId, n) = ([], lastMessageNumber)).
Proof.
  split; [apply handle_all_reports|]. split; [apply handle_all_counter|].
  intros messageId n. unfold ComputeContentID, HandleMessage.
    by destruct (messageId =? 191).
Qed.

(** X14.  On a connection that is up and whose peer sends no message of
    type 191, [RunClient] prints its two lines and leaves in the counter
    the number of rounds in which fewer than 1000 messages were pending:
    at most 100000, and 100000 when that was so in every round. *)
Theorem RunClient_counts_the_messages_it_sends address port transport c rest :
  Connect address port transport = Some c ->
  wait_while_pending (polls c) (settled c) = Some rest ->
  hd (settled c) rest = ConnectionOK ->
  (forall k, numbers (inbound c k) = []) ->
  let sent := rounds_with_room (Z.to_nat numMessagesToSend) 0 c in
  RunClient Connect address port transport 0 =
    Some ([Str "Waiting for connection.."; Endl;
           Str "Connected to "; Str (ToString c); Str "."; Endl], sent) /\
  0 <= sent <= 100000 /\
  ((forall k, outbound_pending c k < 1000) -> sent = 100000).
Proof.
  intros Hc Hw Hok Hq sent.
  destruct (rounds_with_room_range (Z.to_nat numMessagesToSend) 0 c)
    as [Hr Hall].
  change (Z.of_nat (Z.to_nat numMessagesToSend)) with 100000 in Hr, Hall.
  split; [|done].
  unfold RunClient. rewrite Hc, Hw, Hok, send_loop_quiet by (done || lia).
  rewrite Z.add_0_l. unfold u32. rewrite Z.mod_small by (fold sent; lia).
  done.
Qed.

(** X15.  [RunClient] does not return exactly when [Connect] gives a
    connection every poll of which is [ConnectionPending].  Without a
    connection, or with one that is not [ConnectionOK] after the wait, it
    prints the failure and sends nothing: the counter is left as it is. *)
Theorem RunClient_hangs_iff_pending_for_ever address port transport
    lastMessageNumber :
  let result := RunClient Connect address port transport lastMessageNumber in
  (result = None <->
     exists c, Connect address port transport = Some c /\ pending_for_ever c) /\
  (Connect address port transport = None ->
     result = Some ([Str "Unable to connect to "; Str address; Str ":";
                     Num port; Str "."; Endl], lastMessageNumber)) /\
  (forall c rest,
     Connect address port transport = Some c ->
     wait_while_pending (polls c) (settled c) = Some rest ->
     hd (settled c) rest <> ConnectionOK ->
     result = Some ([Str "Waiting for connection.."; Endl;
                     Str "Failed to connect to server!"; Endl],
                    lastMessageNumber)).
Proof.
  intros result. subst result. unfold pending_for_ever. split; [|split].
  - split.
    + intros (c & Hc & Hw)%RunClient_None. exists c.
      by rewrite <- wait_while_pending_None.
    + intros (c & Hc & Hw%wait_while_pending_None).
      unfold RunClient. by rewrite Hc, Hw.
  - intros Hc. unfold RunClient. by rewrite Hc.
  - intros c rest Hc Hw Hne. unfold RunClient. rewrite Hc, Hw.
    by destruct (hd (settled c) rest).
Qed.

(** X16.  [main] prints the usage text, and nothing else, in exactly two
    cases: fewer than four arguments, or the subcommand [client] with a
    valid transport and fewer than five arguments.  The transport is
    looked at before the subcommand: with four arguments or more and an
    invalid transport the line about [tcp] and [udp] is all [main]
    prints, whatever the subcommand. *)
Theorem main_prints_usage_iff argv :
  let result := main StringToSocketTransportLayer atoi StartServer Connect argv in
  let argc := Z.of_nat (length argv) in
  ((exists status, result = Some (PrintUsage, status)) <->
     argc < 4 \/
     (StringToSocketTransportLayer (nth 2 argv "") <> InvalidTransportLayer /\
      _stricmp (nth 1 argv "") "server" <> 0 /\
      _stricmp (nth 1 argv "") "client" = 0 /\ argc < 5)) /\
  (4 <= argc ->
   StringToSocketTransportLayer (nth 2 argv "") = InvalidTransportLayer ->
     result =
       Some ([Str "The second parameter is either 'tcp' or 'udp'!"; Endl], 0)).
Proof.
  intros result argc. subst result argc. unfold main.
  destruct (Z.ltb_spec (Z.of_nat (length argv)) 4) as [Hlt|Hge].
  { split; [|lia]. split; eauto. }
  set (port3 := ushort (atoi (nth 3 argv ""))).
  set (port4 := ushort (atoi (nth 4 argv ""))).
  assert (forall transport status,
            transport <> InvalidTransportLayer ->
            (let '(out, _) := RunServer StartServer port3 transport 0 in
             Some (out, 0)) <> Some (PrintUsage, status)) as Hserver.
  { intros transport status _. unfold RunServer.
    destruct (StartServer port3 transport) as [msgs|]; [|done].
    by destruct (handle_all 0 msgs). }
  assert (forall transport status,
            match RunClient Connect (nth 3 argv "") port4 transport 0 with
            | Some (out, _) => Some (out, 0)
            | None => None
            end <> Some (PrintUsage, status)) as Hclient.
  { intros transport status. unfold RunClient.
    destruct (Connect _ _ _) as [c|]; [|done].
    destruct (wait_while_pending _ _) as [rest|]; [|done].
    destruct (hd _ _); try done. by destruct (send_loop _ _ _ _). }
  destruct (StringToSocketTransportLayer (nth 2 argv "")) eqn:Htr.
  { split; [|done]. split; [by intros [? [=]]|]. intros [?|(? & _)]; [lia|done]. }
  all: split; [|done].
  all: destruct (Z.eqb_spec (_stricmp (nth 1 argv "") "server") 0) as [Hs|Hs].
  all: try (split; [intros [status Hrun]; by apply Hserver in Hrun|];
            intros [?|(_ & ? & _)]; [lia|done]).
  all: destruct (Z.eqb_spec (_stricmp (nth 1 argv "") "client") 0) as [Hc|Hc].
  all: try (split; [by intros [? [=]]|]; intros [?|(_ & _ & ? & _)]; [lia|done]).
  all: destruct (Z.ltb_spec (Z.of_nat (length argv)) 5) as [Hlt5|Hge5].
  all: try (split; [intros _; right; by repeat split|eauto]).
  all: split; [intros [status Hrun]; by apply Hclient in Hrun|].
  all: intros [?|(_ & _ & _ & ?)]; lia.
Qed.

(** X17.  The subcommand [server], end to end: the port is the number of
    the fourth argument cut to 16 bits, the counter starts at 0, and
    [main] returns 0 with an output that reports a message out of order
    exactly when the numbers the server receives do not ascend from 0;
    when the server cannot be started, [main] prints only that. *)
Theorem main_server_reports_every_descent argv transport :
  4 <= Z.of_nat (length argv) ->
  StringToSocketTransportLayer (nth 2 argv "") = transport ->
  transport <> InvalidTransportLayer ->
  _stricmp (nth 1 argv "") "server" = 0 ->
  let port := atoi (nth 3 argv "") mod 65536 in
  let result := main StringToSocketTransportLayer atoi StartServer Connect argv in
  (forall msgs, StartServer port transport = Some msgs ->
     exists out, result = Some (out, 0) /\
       (out_of_order_reports out = 0%nat <-> ascending 0 (numbers msgs))) /\
  (StartServer port transport = None ->
     result = Some ([Str "Unable to start server in port "; Num port;
                     Str "!"; Endl], 0)).
Proof.
  intros Hargc Htr Hvalid Hs port result. subst result. unfold main.
  destruct (Z.ltb_spec (Z.of_nat (length argv)) 4); [lia|].
  rewrite Htr, Hs. change (0 =? 0) with true. cbn match.
  change (ushort (atoi (nth 3 argv ""))) with port.
  assert (forall msgs,
            exists out', handle_all 0 msgs = (out', (handle_all 0 msgs).2) /\
              (out_of_order_reports out' = 0%nat <-> ascending 0 (numbers msgs)))
    as Hall.
  { intros msgs.
    pose proof (handle_all_reports 0 msgs) as Hiff.
    destruct (handle_all 0 msgs) as [out' last']. by exists out'. }
  split.
  - intros msgs Hstart. destruct (Hall msgs) as (out' & Hrun & Hiff).
    destruct transport; [done|..]; unfold RunServer; rewrite Hstart, Hrun;
      eexists; (split; [done|]); by rewrite out_of_order_reports_app.
  - intros Hstart.
    destruct transport; [done|..]; unfold RunServer; by rewrite Hstart.
Qed.
End MoreHarnessProperties.

(** * The further properties at concrete queues and command lines *)

Section MoreExamplesLP64.
#[local] Existing Instance LP64.

Lemma CapacityLeft_counts_the_free_slots_witness :
  wf q_full /\ wf q_empty /\
  (exists q', Insert 9 q_full = Some (false, q')) /\
  (exists q', Insert 9 q_empty = Some (true, q') /\ CapacityLeft q' = 3 - 1).
Proof.
  assert (wf q_full) as Hf by (apply wf_check_sound; reflexivity).
  assert (wf q_empty) as He by (apply wf_check_sound; reflexivity).
  split; [exact Hf|]. split; [exact He|]. split.
  - destruct (CapacityLeft_counts_the_free_slots q_full 9 Hf) as (_ & _ & Hiff & _).
    apply Hiff. reflexivity.
  - destruct (CapacityLeft_counts_the_free_slots q_empty 9 He) as (_ & _ & _ & Hroom).
    apply Hroom. reflexivity.
Defined.

Lemma Clear_empties_the_queue_witness :
  wf q_full /\
  exists q', Clear q_full = Some (tt, q') /\ Size q' = 0 /\ elements q' = Some [].
Proof.
  assert (wf q_full) as Hf by (apply wf_check_sound; reflexivity).
  split; [exact Hf|].
  destruct (Clear_empties_the_queue q_full Hf) as (q' & Hrun & _ & HS & _ & Hl & _).
  exists q'. split; [exact Hrun|]. split; [exact HS|exact Hl].
Defined.

(** The 2 in the free slot of [q_full] is not found. *)
Lemma Contains_iff_an_element_witness :
  wf q_full /\ elements q_full = Some [3; 4; 5] /\
  Contains 4 q_full = Some (true, q_full) /\
  Contains 2 q_full = Some (false, q_full).
Proof.
  assert (wf q_full) as Hf by (apply wf_check_sound; reflexivity).
  assert (elements q_full = Some [3; 4; 5]) as Hl by reflexivity.
  split; [exact Hf|]. split; [exact Hl|]. split.
  - exact (Contains_iff_an_element q_full _ 4 Hf Hl).
  - exact (Contains_iff_an_element q_full _ 2 Hf Hl).
Defined.

(** The last element is 0, and the test passes. *)
Lemma ContainerUniqueAndNoNullElements_skips_the_last_witness :
  let q := mkQueue [0; 2; 3; 4] 3 2 1 in
  wf q /\ elements q = Some [3; 4; 0] /\
  ContainerUniqueAndNoNullElements 0 q = Some (true, q).
Proof.
  intros q.
  assert (wf q) as Hf by (apply wf_check_sound; reflexivity).
  assert (elements q = Some [3; 4; 0]) as Hl by reflexivity.
  split; [exact Hf|]. split; [exact Hl|].
  destruct (ContainerUniqueAndNoNullElements_skips_the_last 0 q _ Hf Hl)
    as (b & Hrun & Hb).
  assert (b = true) as <-; [|exact Hrun].
  apply Hb. split.
  - apply (bool_decide_unpack _). reflexivity.
  - intros k x Hx Hk. destruct k as [|[|k]]; simpl in Hx, Hk; [..|lia];
      injection Hx as <-; discriminate.
Defined.

Lemma TakeFront_times_takes_a_prefix_witness :
  wf q_full /\ elements q_full = Some [3; 4; 5] /\
  (exists q', TakeFront_times 2 q_full = Some ([3; 4], q') /\
              elements q' = Some [5]) /\
  TakeFront_times 4 q_full = None.
Proof.
  assert (wf q_full) as Hf by (apply wf_check_sound; reflexivity).
  assert (elements q_full = Some [3; 4; 5]) as Hl by reflexivity.
  split; [exact Hf|]. split; [exact Hl|].
  split.
  - destruct (TakeFront_times_takes_a_prefix q_full _ 2 Hf Hl) as [Hok _].
    destruct Hok as (q' & Hrun & Hl' & _); [simpl; lia|].
    exists q'. split; [exact Hrun|exact Hl'].
  - destruct (TakeFront_times_takes_a_prefix q_full _ 4 Hf Hl) as [_ Hfail].
    apply Hfail. simpl. lia.
Defined.

Lemma Insert_then_TakeFront_round_trip_witness :
  wf q_empty /\ elements q_empty = Some [] /\
  Size q_empty + Z.of_nat (length [7; 8; 9]) <= Capacity q_empty /\
  exists q1 q2,
    insert_all [7; 8; 9] q_empty = Some q1 /\
    TakeFront_times 3 q1 = Some ([7; 8; 9], q2) /\ Size q2 = 0.
Proof.
  assert (wf q_empty) as He by (apply wf_check_sound; reflexivity).
  assert (elements q_empty = Some []) as Hl by reflexivity.
  assert (Size q_empty + Z.of_nat (length [7; 8; 9]) <= Capacity q_empty)
    as Hroom by discriminate.
  split; [exact He|]. split; [exact Hl|]. split; [exact Hroom|].
  destruct (Insert_then_TakeFront_round_trip q_empty _ [7; 8; 9] He Hl Hroom)
    as (q1 & q2 & Hins & Htake & HS & _).
  exists q1, q2. split; [exact Hins|]. split; [exact Htake|exact HS].
Defined.

Lemma Resize_needs_room_for_the_elements_witness :
  wf q_full /\ valid_size 2 /\ RoundUpToNextPow2 (u32 2) < Size q_full /\
  Resize 0 2 q_full = None.
Proof.
  assert (wf q_full) as Hf by (apply wf_check_sound; reflexivity).
  assert (valid_size 2) as Hn by (split; [reflexivity|discriminate]).
  assert (RoundUpToNextPow2 (u32 2) < Size q_full) as Hlt by reflexivity.
  split; [exact Hf|]. split; [exact Hn|]. split; [exact Hlt|].
  exact (proj1 (Resize_needs_room_for_the_elements 0 q_full 2 Hf Hn) Hlt).
Defined.

Lemma no_allocation_after_initialization_witness :
  keeps_array (T:=Z) (OpEraseItemAt 1) = true /\
  run_op 0 (OpEraseItemAt 1) q_full = Some (tt, mkQueue [5; 2; 3; 3] 3 3 1) /\
  same_array q_full (mkQueue [5; 2; 3; 3] 3 3 1).
Proof.
  assert (run_op 0 (OpEraseItemAt 1) q_full = Some (tt, mkQueue [5; 2; 3; 3] 3 3 1))
    as Hrun by reflexivity.
  split; [reflexivity|]. split; [exact Hrun|].
  exact (no_allocation_after_initialization 0 (OpEraseItemAt 1) q_full _
           eq_refl Hrun).
Defined.

(** Index 5 of a queue of three elements in four slots is index 1. *)
Lemma ItemAt_wraps_around_witness :
  wf q_full /\ ItemAt 5 q_full = ItemAt 1 q_full.
Proof.
  assert (wf q_full) as Hf by (apply wf_check_sound; reflexivity).
  split; [exact Hf|].
  apply (ItemAt_wraps_around q_full 5 1 Hf). reflexivity.
Defined.

Lemma EraseItemAt_0_is_PopFront_unless_empty_witness :
  wf q_full /\ head q_full <> tail q_full /\
  EraseItemAt 0 q_full = PopFront q_full /\
  exists q', EraseItemAt 0 q_empty = Some (tt, q') /\ Size q' = Capacity q_empty.
Proof.
  assert (wf q_full) as Hf by (apply wf_check_sound; reflexivity).
  assert (wf q_empty) as He by (apply wf_check_sound; reflexivity).
  assert (head q_full <> tail q_full) as Hne by discriminate.
  split; [exact Hf|]. split; [exact Hne|]. split.
  - exact (proj1 (EraseItemAt_0_is_PopFront_unless_empty q_full Hf) Hne).
  - destruct (EraseItemAt_0_is_PopFront_unless_empty q_empty He) as [_ Hempty].
    destruct (Hempty eq_refl) as (_ & q' & Hrun & _ & HS & _).
    exists q'. split; [exact Hrun|exact HS].
Defined.

(** The producer has read [tail] and found room; the consumer holds the
    pointer to an element inserted before. *)
Lemma a_call_ends_within_a_fixed_number_of_steps_witness :
  let s := mkState (mkQueue [7; 0; 0; 0] 3 0 1) (PWrite 8 1 2) (CHold 0) [7] [] in
  valid_size 4 /\
  interleaving (initial (WaitFreeQueue_new 0 4)) s /\
  (exists s', step Producer s s') /\
  (exists s', step Consumer s s') /\
  exists n s', (n <= 3)%nat /\ nsteps (step Producer) n s s' /\ idle Producer s'.
Proof.
  intros s.
  assert (valid_size 4) as Hn by (split; [reflexivity|discriminate]).
  assert (interleaving (initial (WaitFreeQueue_new 0 4)) s) as Hrun.
  { unfold interleaving.
    eapply rtc_l; [exists Producer; apply (p_read_tail _ _ _ _ 7)|].
    eapply rtc_l; [exists Producer; apply p_room; discriminate|].
    eapply rtc_l; [exists Producer; apply p_write; reflexivity|].
    eapply rtc_l; [exists Producer; apply p_publish|].
    eapply rtc_l; [exists Consumer; apply c_front_head|].
    eapply rtc_l; [exists Producer; apply (p_read_tail _ _ _ _ 8)|].
    eapply rtc_l; [exists Consumer; apply c_front_nonempty; discriminate|].
    eapply rtc_l; [exists Producer; apply p_room; discriminate|].
    eapply rtc_l; [exists Consumer; apply c_front_return|].
    apply rtc_refl. }
  split; [exact Hn|]. split; [exact Hrun|].
  destruct (a_call_ends_within_a_fixed_number_of_steps 0 4 s Producer Hn Hrun)
    as (Hp & _ & Hend).
  destruct (a_call_ends_within_a_fixed_number_of_steps 0 4 s Consumer Hn Hrun)
    as (Hc & _).
  split; [exact Hp|]. split; [exact Hc|exact Hend].
Defined.

(** The producer is about to write slot 1 while the consumer reads
    slot 0. *)
Lemma no_slot_is_written_while_it_is_read_witness :
  let s := mkState (mkQueue [7; 0; 0; 0] 3 0 1) (PWrite 8 1 2) (CHold 0) [7] [] in
  valid_size 4 /\
  interleaving (initial (WaitFreeQueue_new 0 4)) s /\
  0 <= 1 <= maxElementsMask (mem s) /\ 0 <> 1.
Proof.
  intros s.
  assert (valid_size 4) as Hn by (split; [reflexivity|discriminate]).
  assert (interleaving (initial (WaitFreeQueue_new 0 4)) s) as Hrun.
  { unfold interleaving.
    eapply rtc_l; [exists Producer; apply (p_read_tail _ _ _ _ 7)|].
    eapply rtc_l; [exists Producer; apply p_room; discriminate|].
    eapply rtc_l; [exists Producer; apply p_write; reflexivity|].
    eapply rtc_l; [exists Producer; apply p_publish|].
    eapply rtc_l; [exists Consumer; apply c_front_head|].
    eapply rtc_l; [exists Producer; apply (p_read_tail _ _ _ _ 8)|].
    eapply rtc_l; [exists Consumer; apply c_front_nonempty; discriminate|].
    eapply rtc_l; [exists Producer; apply p_room; discriminate|].
    eapply rtc_l; [exists Consumer; apply c_front_return|].
    apply rtc_refl. }
  split; [exact Hn|]. split; [exact Hrun|].
  destruct (no_slot_is_written_while_it_is_read 0 4 s Hn Hrun) as [Hw _].
  destruct (Hw 8 1 2 eq_refl) as (Hin & _ & Hrace).
  split; [exact Hin|]. exact (Hrace 0 eq_refl).
Defined.


End MoreExamplesLP64.

Section MoreHarnessExamples.
Import InOrderTest InOrderTestMore.
#[local] Existing Instance LP64.
Local Open Scope string_scope.
Local Open Scope list_scope.

(** The 2 after the 3 is reported; the message of type 7 is not looked at. *)
Lemma HandleMessage_reports_every_descent_witness :
  let msgs := [(191, 1); (191, 3); (7, 0); (191, 2)] in
  ~ ascending 0 (numbers msgs) /\
  out_of_order_reports (handle_all 0 msgs).1 <> 0%nat /\
  (handle_all 0 msgs).2 = 2.
Proof.
  intros msgs.
  assert (~ ascending 0 (numbers msgs)) as Hno.
  { intros (_ & _ & Hlt & _). discriminate Hlt. }
  split; [exact Hno|].
  destruct (HandleMessage_reports_every_descent 0 msgs) as (Hiff & Hlast & _).
  split; [|exact Hlast].
  intros Hzero. exact (Hno (proj1 Hiff Hzero)).
Defined.

Lemma RunClient_counts_the_messages_it_sends_witness :
  let c := {| polls := [ConnectionPending; ConnectionOK];
              settled := ConnectionOK;
              ToString := "127.0.0.1:1234";
              inbound := fun _ => [];
              outbound_pending := fun _ => 0 |} in
  wait_while_pending (polls c) (settled c) = Some [] /\
  RunClient (fun _ _ _ => Some c) "127.0.0.1" 1234 SocketOverUDP 0 =
    Some ([Str "Waiting for connection.."; Endl;
           Str "Connected to "; Str "127.0.0.1:1234"; Str "."; Endl], 100000).
Proof.
  intros c.
  assert (wait_while_pending (polls c) (settled c) = Some []) as Hw by reflexivity.
  split; [exact Hw|].
  destruct (RunClient_counts_the_messages_it_sends
              (fun _ _ _ => Some c) "127.0.0.1" 1234 SocketOverUDP c []
              eq_refl Hw eq_refl (fun _ => eq_refl))
    as (Hrun & _ & Hall).
  rewrite <- (Hall (fun _ => eq_refl)). exact Hrun.
Defined.

Lemma RunClient_hangs_iff_pending_for_ever_witness :
  let c := {| polls := [ConnectionPending; ConnectionPending];
              settled := ConnectionPending;
              ToString := "127.0.0.1:1234";
              inbound := fun _ => [];
              outbound_pending := fun _ => 0 |} in
  pending_for_ever c /\
  RunClient (fun _ _ _ => Some c) "127.0.0.1" 1234 SocketOverUDP 0 = None.
Proof.
  intros c.
  assert (pending_for_ever c) as Hp.
  { split; [|reflexivity]. repeat constructor. }
  split; [exact Hp|].
  destruct (RunClient_hangs_iff_pending_for_ever
              (fun _ _ _ => Some c) "127.0.0.1" 1234 SocketOverUDP 0)
    as (Hiff & _).
  apply Hiff. exists c. split; [reflexivity|exact Hp].
Defined.

Lemma main_prints_usage_iff_witness :
  let argv := ["InOrderTest"; "client"; "udp"; "localhost"] in
  Z.of_nat (length argv) < 5 /\
  (exists status, main_offline argv = Some (PrintUsage, status)) /\
  main_offline ["InOrderTest"; "client"; "ip"; "localhost"; "1234"] =
    Some ([Str "The second parameter is either 'tcp' or 'udp'!"; Endl], 0).
Proof.
  intros argv.
  assert (Z.of_nat (length argv) < 5) as Hargc by reflexivity.
  split; [exact Hargc|]. split.
  - destruct (main_prints_usage_iff
                StringToSocketTransportLayer_model atoi_model no_server no_route
                argv) as (Hiff & _).
    apply Hiff. right.
    split; [discriminate|]. split; [discriminate|]. split; [reflexivity|exact Hargc].
  - destruct (main_prints_usage_iff
                StringToSocketTransportLayer_model atoi_model no_server no_route
                ["InOrderTest"; "client"; "ip"; "localhost"; "1234"])
      as (_ & Hinvalid).
    apply Hinvalid; [discriminate|reflexivity].
Defined.

(** Port 70000 is port 4464. *)
Lemma main_server_reports_every_descent_witness :
  let argv := ["InOrderTest"; "SERVER"; "udp"; "70000"] in
  let StartServer := fun (port : Z) (_ : SocketTransportLayer) =>
    if Z.eqb port 4464 then Some [(191, 1); (191, 2); (191, 5)] else None in
  4 <= Z.of_nat (length argv) /\
  _stricmp (nth 1 argv "") "server" = 0 /\
  exists out,
    main StringToSocketTransportLayer_model atoi_model StartServer no_route argv
      = Some (out, 0) /\
    out_of_order_reports out = 0%nat.
Proof.
  intros argv StartServer.
  assert (4 <= Z.of_nat (length argv)) as Hargc by discriminate.
  assert (_stricmp (nth 1 argv "") "server" = 0) as Hs by reflexivity.
  split; [exact Hargc|]. split; [exact Hs|].
  destruct (main_server_reports_every_descent
              StringToSocketTransportLayer_model atoi_model StartServer no_route
              argv SocketOverUDP Hargc eq_refl)
    as (Hok & _); [discriminate|exact Hs|].
  destruct (Hok [(191, 1); (191, 2); (191, 5)] eq_refl) as (out & Hrun & Hiff).
  exists out. split; [exact Hrun|].
  apply Hiff. simpl. lia.
Defined.
End MoreHarnessExamples.
